(** * LambdaCraft: the combinators of [lambda.h]

    [lambda.h] gives GNU C five statement-expression macros built on one
    primitive, the nested-function lambda:

      - [fold] and [map] over arrays,
      - [fold_s], [foreach_s] and [map_s] over linked structures.

    A macro argument such as [body] or [next] is a block of C code that the
    macro wraps into a nested function.  The block reads the macro's local
    variables that its documentation names ([acc], [value], [next]) and
    reads and writes whatever the caller's scope holds.  It is embedded
    here as a function that receives the current values of those locals
    and transforms the caller's store; what the block returns is what the
    macro assigns.  A block that assigns the macro's own locals directly,
    the loop counter included, is outside the embedding, and so is one
    that does not return.

    Results are [option]s.  For the array combinators [None] is a read or
    a write outside allocated memory, or the overflow of the [int] loop
    counter.  For the chain combinators, whose loops need not end, [None]
    is running out of fuel. *)

From Stdlib Require Import ZArith Lia.
From stdpp Require Import base option list gmap strings.

Local Open Scope Z_scope.

(** ** Machine integers and pointers *)

Module Int.

(** [int] is 32 bits wide. *)
Definition INT_MAX : Z := 2147483647.
Definition INT_MIN : Z := -2147483648.

(** Two's complement wrap-around of a mathematical integer. *)
Definition wrap (z : Z) : Z := (z - INT_MIN) mod 4294967296 + INT_MIN.

Definition add (a b : Z) : Z := wrap (a + b).
Definition mul (a b : Z) : Z := wrap (a * b).

(** [i++] on an [int] loop counter.  Incrementing [INT_MAX] has no defined
    result.  A loop guarded by [i < size] with [size] an [int] never gets
    there. *)
Definition incr (i : Z) : option Z :=
  if i <? INT_MAX then Some (i + 1) else None.

End Int.

(** A pointer is an address; [NULL] is address 0. *)
Definition ptr : Type := Z.
Definition NULL : ptr := 0.

(** ** The lambda

    <<
    #define lambda(ret, args, body) ({ret _lambda args body; _lambda;})
    >>
    (the header names the macro with a Greek letter and gives it the alias
    [lambda]).  The statement expression declares a nested function and
    evaluates to it.  The value is the bare function: it carries no record of the block
    it was created in, and calling it is an ordinary call.  The nested
    function reaches the variables of the enclosing scope by reference,
    which is why its embedding is a function of the store. *)
Definition lambda {T : Type} (body : T) : T := body.
Arguments lambda {T} body /.

(** ** Array combinators: [fold] and [map] *)

Module Arrays.
Section Arrays.

Context {E U : Type}.

(** The store an array combinator runs in: memory cells holding elements,
    addressed in units of one element, and the rest of the caller's scope
    (the variables the lambda captures). *)
Record store : Type := Store { cells : gmap Z E; env : U }.

(** [a[i]] as an rvalue: reading outside allocated memory has no result. *)
Definition load (a : Z) (s : store) : option E := cells s !! a.

(** [a[i] = v]: same for writing. *)
Definition write (a : Z) (v : E) (s : store) : option store :=
  match cells s !! a with
  | Some _ => Some (Store (<[a := v]> (cells s)) (env s))
  | None => None
  end.

(** <<
    #define fold(acc_type, element_type, in_array, size, body, init_acc) ({
      acc_type acc = init_acc;
      for(int i=0;i<size;i++)
        acc=lambda(acc_type,(element_type value), body)(in_array[i]);
      ; acc; })
    >>
    [fuel] bounds the number of iterations; [fold] passes enough. *)
Fixpoint fold_loop {A : Type} (fuel : nat) (in_array size : Z)
    (body : A → E → store → A * store)
    (i : Z) (acc : A) (s : store) : option (A * store) :=
  if i <? size then
    match fuel with
    | O => None
    | S fuel' =>
        value ← load (in_array + i) s;
        let '(acc', s') := lambda (body acc) value s in
        i' ← Int.incr i;
        fold_loop fuel' in_array size body i' acc' s'
    end
  else Some (acc, s).

Definition fold {A : Type} (in_array size : Z)
    (body : A → E → store → A * store) (init_acc : A) (s : store)
    : option (A * store) :=
  fold_loop (Z.to_nat size) in_array size body 0 init_acc s.

(** <<
    #define map(type, in_array, size, body, out_array) ({
      for(int i=0;i<size;i++) {
        out_array[i]=lambda(type,(type value), body)(in_array[i]);
      }; })
    >> *)
Fixpoint map_loop (fuel : nat) (in_array size : Z)
    (body : E → store → E * store) (out_array : Z)
    (i : Z) (s : store) : option store :=
  if i <? size then
    match fuel with
    | O => None
    | S fuel' =>
        value ← load (in_array + i) s;
        let '(r, s') := lambda body value s in
        s'' ← write (out_array + i) r s';
        i' ← Int.incr i;
        map_loop fuel' in_array size body out_array i' s''
    end
  else Some s.

Definition map (in_array size : Z) (body : E → store → E * store)
    (out_array : Z) (s : store) : option store :=
  map_loop (Z.to_nat size) in_array size body out_array 0 s.

(** *** Specification vocabulary for arrays *)

(** The array at [a] holds exactly the elements of [l], in order. *)
Definition array_at (a : Z) (l : list E) (s : store) : Prop :=
  ∀ (k : nat) (v : E), l !! k = Some v → cells s !! (a + Z.of_nat k) = Some v.

(** The cells [a .. a+n-1] are allocated. *)
Definition allocated (a : Z) (n : Z) (s : store) : Prop :=
  ∀ k : Z, 0 ≤ k < n → is_Some (cells s !! (a + k)).

(** Left fold of a reducer over a sequence of elements, threading the
    accumulator and the store from left to right. *)
Fixpoint reduce {A : Type} (f : A → E → store → A * store)
    (l : list E) (acc : A) (s : store) : A * store :=
  match l with
  | [] => (acc, s)
  | v :: l' => let '(acc', s') := f acc v s in reduce f l' acc' s'
  end.

(** A transform that only works on its argument and the captured
    variables, lifted to the store. *)
Definition on_env (g : E → U → E * U) (v : E) (s : store) : E * store :=
  let '(r, u) := g v (env s) in (r, Store (cells s) u).

(** The transform applied to a sequence of elements from left to right,
    threading the captured variables. *)
Fixpoint transform (g : E → U → E * U) (l : list E) (u : U) : list E * U :=
  match l with
  | [] => ([], u)
  | v :: l' =>
      let '(r, u') := g v u in
      let '(rs, u'') := transform g l' u' in (r :: rs, u'')
  end.

(** The memory [m] with the elements of [l] laid out from address [a]. *)
Fixpoint place (a : Z) (l : list E) (m : gmap Z E) : gmap Z E :=
  match l with
  | [] => m
  | v :: l' => <[a := v]> (place (a + 1) l' m)
  end.

(** The [n] cells from address [a] on, as a sequence of reads. *)
Fixpoint contents (a : Z) (n : nat) (s : store) : list (option E) :=
  match n with
  | O => []
  | S n' => load a s :: contents (a + 1) n' s
  end.

End Arrays.
Arguments store : clear implicits.

(** [{ return value; }] *)
Definition identity {E U : Type} (value : E) (s : store E U) : E * store E U :=
  (value, s).

(** A reducer wrapped so that every invocation appends the element it
    was called with to a log kept next to the captured variables. *)
Definition recording {E U A : Type} (f : A → E → store E U → A * store E U)
    (acc : A) (value : E) (s : store E (U * list E)) : A * store E (U * list E) :=
  let '(r, s') := f acc value (Store (cells s) (env s).1) in
  (r, Store (cells s') (env s', (env s).2 ++ [value])).

End Arrays.

(** ** Sample uses of the array combinators *)

Module Usage.

(** <<
    int numbers[] = {1, 2, 3, 4, 5};
    fold(int, int, numbers, 5, { return acc + value; }, 0)
    >>
    [numbers] is the address the array sits at. *)
Definition numbers : Z := 100.
Definition numbers_store : Arrays.store Z unit :=
  Arrays.Store (Arrays.place numbers [1; 2; 3; 4; 5] ∅) tt.
Definition plus (acc value : Z) (s : Arrays.store Z unit) : Z * Arrays.store Z unit :=
  (Int.add acc value, s).

(** <<
    int arr[] = {1, 2, 3, 4, 5};
    int squared[5];
    map(int, arr, 5, { return value * value; }, squared);
    >> *)
Definition arr : Z := 100.
Definition squared : Z := 200.
Definition arr_store : Arrays.store Z unit :=
  Arrays.Store
    (Arrays.place arr [1; 2; 3; 4; 5] (Arrays.place squared [0; 0; 0; 0; 0] ∅)) tt.
Definition square (value : Z) (u : unit) : Z * unit := (Int.mul value value, u).

(** A reducer on strings that is not commutative: the accumulator, a
    dash, the element. *)
Definition words : Z := 10.
Definition words_store : Arrays.store string unit :=
  Arrays.Store (Arrays.place words ["a"; "b"; "c"]%string ∅) tt.
Definition dash (acc value : string) (s : Arrays.store string unit)
    : string * Arrays.store string unit :=
  ((acc +:+ "-" +:+ value)%string, s).

(** A transform that reads the source element before the one it is given:
    with [p] the address of the source array and a counter of the calls
    in the captured variables, it returns [value + p[calls-1]], and
    [value] itself on the first call. *)
Definition plus_previous (p : Z) (value : Z) (s : Arrays.store Z Z)
    : Z * Arrays.store Z Z :=
  let i := Arrays.env s in
  let prev := if i =? 0 then 0 else default 0 (Arrays.load (p + i - 1) s) in
  (Int.add value prev, Arrays.Store (Arrays.cells s) (i + 1)).

End Usage.

(** ** Chain combinators: [fold_s], [foreach_s] and [map_s] *)

Module Chains.
Section Chains.

(** The caller's store: the heap the elements live in and the local
    variables the lambdas capture.  The combinators never touch it
    themselves, only through the lambdas. *)
Context {W : Type}.

(** <<
    #define fold_s(acc_type, element_type, first_e, next, body, init_acc) ({
      acc_type acc = init_acc;
      for(element_type value=first_e; value!=NULL;
          value=lambda(element_type, (), next)())
          acc=lambda(acc_type,(), body)();
      ; acc; })
    >>
    Both lambdas take no argument: they read [acc] and [value] from the
    enclosing block.  The loop body runs before the step expression, so
    [next] sees the accumulator [body] has just returned.  [fuel] bounds
    the number of elements visited. *)
Fixpoint fold_s {A : Type} (fuel : nat) (first_e : ptr)
    (next : A → ptr → W → ptr * W) (body : A → ptr → W → A * W)
    (init_acc : A) (w : W) : option (A * W) :=
  if first_e =? NULL then Some (init_acc, w)
  else
    match fuel with
    | O => None
    | S fuel' =>
        let '(acc, w1) := lambda (body init_acc first_e) w in
        let '(value, w2) := lambda (next acc first_e) w1 in
        fold_s fuel' value next body acc w2
    end.

(** <<
    #define foreach_s(element_type, first_e, body) ({
      for(element_type value=first_e; value!=NULL;
        value=lambda(element_type, (), body)())
      ; })
    >> *)
Fixpoint foreach_s (fuel : nat) (first_e : ptr)
    (body : ptr → W → ptr * W) (w : W) : option W :=
  if first_e =? NULL then Some w
  else
    match fuel with
    | O => None
    | S fuel' =>
        let '(value, w') := lambda (body first_e) w in
        foreach_s fuel' value body w'
    end.

(** <<
    #define map_s(type, first_e, findnext, body) ({
      type aux(type value) {
        if(!value) return value;
        else {
          type next = lambda(type, (type next), findnext)(value);
          next = aux(next);
          return lambda(type, (), body)();
        }
      } ; aux(first_e) ;})
    >>
    [findnext] is called with [value] as its argument; [body] reads
    [value] and [next] from the frame of [aux].  [fuel] bounds the depth
    of the recursion; this definition says what [map_s] computes when it
    returns, and the room the recursion takes on the stack is the matter
    of [Stack.aux] below. *)
Fixpoint aux (findnext : ptr → W → ptr * W) (body : ptr → ptr → W → ptr * W)
    (fuel : nat) (value : ptr) (w : W) : option (ptr * W) :=
  if value =? NULL then Some (value, w)
  else
    match fuel with
    | O => None
    | S fuel' =>
        let '(next, w1) := lambda findnext value w in
        '(next', w2) ← aux findnext body fuel' next w1;
        Some (lambda (body value next') w2)
    end.

Definition map_s (fuel : nat) (first_e : ptr)
    (findnext : ptr → W → ptr * W) (body : ptr → ptr → W → ptr * W)
    (w : W) : option (ptr * W) :=
  aux findnext body fuel first_e w.

(** *** Specification vocabulary for chains *)

(** The head of a chain given by the sequence of its elements. *)
Definition head_of (l : list ptr) : ptr := hd NULL l.

(** [fold_s] on a chain given by its elements: each element is visited
    once, first to last, and a visit is the reducer, then the successor. *)
Fixpoint visit {A : Type} (next : A → ptr → W → ptr * W)
    (body : A → ptr → W → A * W) (l : list ptr) (acc : A) (w : W) : A * W :=
  match l with
  | [] => (acc, w)
  | x :: l' =>
      let '(acc', w1) := body acc x w in
      visit next body l' acc' (next acc' x w1).2
  end.

(** The combined callable of [foreach_s] applied once to each element,
    first to last. *)
Fixpoint walk (body : ptr → W → ptr * W) (l : list ptr) (w : W) : W :=
  match l with
  | [] => w
  | x :: l' => walk body l' (body x w).2
  end.

(** The descent of [map_s]: the successor lambda applied once to each
    element, first to last. *)
Definition descend (findnext : ptr → W → ptr * W) : list ptr → W → W :=
  walk findnext.

(** The way back of [map_s]: new nodes are built last to first, each one
    from its original element and the new node built just before. *)
Fixpoint build (body : ptr → ptr → W → ptr * W) (l : list ptr) (w : W)
    : ptr * W :=
  match l with
  | [] => (NULL, w)
  | x :: l' => let '(next, w') := build body l' w in body x next w'
  end.

(** The invocations of the transform of [map_s] on a chain, in the order
    they happen: the element, the successor argument, the value returned. *)
Fixpoint calls (body : ptr → ptr → W → ptr * W) (l : list ptr) (w : W)
    : list (ptr * ptr * ptr) :=
  match l with
  | [] => []
  | x :: l' =>
      calls body l' w
        ++ [(x, (build body l' w).1, (body x (build body l' w).1 (build body l' w).2).1)]
  end.

(** The invocations of the callable of [foreach_s] on a chain: each element
    with the element after it, the last one with [NULL]. *)
Fixpoint links (l : list ptr) : list (ptr * ptr) :=
  match l with
  | [] => []
  | x :: l' => (x, head_of l') :: links l'
  end.

(** The step expression of [fold_s] after the loop body: from the current
    element to the next one. *)
Definition fold_s_step {A : Type} (next : A → ptr → W → ptr * W)
    (body : A → ptr → W → A * W) (acc : A) (x : ptr) (w : W) : ptr * W :=
  let '(acc', w1) := body acc x w in next acc' x w1.

(** A finite chain as a traversal sees it.  [Rem l w] reads: in store [w]
    the elements still to be visited are [l], first to last.  Every such
    element is non-null, and stepping from the first one yields the head
    of the rest (the Sentinel when nothing is left) in a store where the
    rest is still to be visited. *)
Definition finite_chain (Rem : list ptr → W → Prop)
    (step : ptr → W → ptr * W) : Prop :=
  ∀ x l w, Rem (x :: l) w →
    x ≠ NULL ∧ (step x w).1 = head_of l ∧ Rem l (step x w).2.

(** A chain that never reaches the Sentinel, such as a cycle.  [On x w]
    reads: in store [w] the traversal stands on element [x] of it. *)
Definition endless (On : ptr → W → Prop) (step : ptr → W → ptr * W) : Prop :=
  ∀ x w, On x w → x ≠ NULL ∧ On (step x w).1 (step x w).2.

(** A lambda wrapped so that every invocation appends an entry, made from
    the value it returns, to a log kept next to the store. *)
Definition noting {R T : Type} (entry : R → T) (f : W → R * W)
    (wl : W * list T) : R * (W * list T) :=
  let '(r, w') := f wl.1 in (r, (w', wl.2 ++ [entry r])).

(** A lambda running next to a log it does not touch. *)
Definition aside {R L : Type} (f : W → R * W) (wl : W * L) : R * (W * L) :=
  let '(r, w') := f wl.1 in (r, (w', wl.2)).

End Chains.
End Chains.

(** ** The heap of the example programs *)

Module Heap.
Section Heap.

(** [N] is the struct the program allocates. *)
Context {N : Type}.

(** Allocated structs by address, and the next address [malloc] hands
    out. *)
Record heap : Type := Mk { nodes : gmap Z N; brk : Z }.

Definition empty : heap := Mk ∅ 1.

(** [malloc(sizeof(N))]: a fresh address.  The struct there starts with
    the content [blank]; the programs assign every field before reading
    it. *)
Definition malloc (blank : N) (h : heap) : ptr * heap :=
  (brk h, Mk (<[brk h := blank]> (nodes h)) (brk h + 1)).

Definition free (p : ptr) (h : heap) : heap := Mk (delete p (nodes h)) (brk h).

(** [p->field] as an rvalue, [dflt] standing for what a dangling pointer
    reads. *)
Definition field {T : Type} (get : N → T) (dflt : T) (p : ptr) (h : heap) : T :=
  from_option get dflt (nodes h !! p).

(** [p->field = v] *)
Definition assign (set : N → N) (p : ptr) (h : heap) : heap :=
  Mk (alter set p (nodes h)) (brk h).

(** Every allocated address is non-null and below the allocation mark. *)
Definition wf (h : heap) : Prop :=
  0 < brk h ∧ ∀ a n, nodes h !! a = Some n → 0 < a < brk h.

(** The structs at the addresses [l], in this order, are linked through
    [link] and the last link is [NULL]. *)
Fixpoint chain (link : N → ptr) (l : list ptr) (h : heap) : Prop :=
  match l with
  | [] => True
  | x :: l' =>
      x ≠ NULL ∧ (∃ n, nodes h !! x = Some n ∧ link n = hd NULL l') ∧
      chain link l' h
  end.

End Heap.
Arguments heap : clear implicits.
End Heap.

(** ** [map_struct_example.c] *)

Module MapStruct.

(** <<
    typedef struct Node { int data; struct Node* next; } Node;
    >> *)
Record Node : Type := mkNode { data : Z; next : ptr }.

Definition blank : Node := mkNode 0 NULL.

Definition data_of : ptr → Heap.heap Node → Z := Heap.field data 0.
Definition next_of : ptr → Heap.heap Node → ptr := Heap.field next NULL.
Definition set_data (p : ptr) (d : Z) : Heap.heap Node → Heap.heap Node :=
  Heap.assign (λ n, mkNode d (next n)) p.
Definition set_next (p : ptr) (q : ptr) : Heap.heap Node → Heap.heap Node :=
  Heap.assign (λ n, mkNode (data n) q) p.

(** [{ return value->next; }] *)
Definition findnext (value : ptr) (h : Heap.heap Node) : ptr * Heap.heap Node :=
  (next_of value h, h).

(** <<
    { Node *r_value = malloc(sizeof(Node));
      r_value->data = value->data * value->data;
      r_value->next = next;
      return r_value; }
    >> *)
Definition body (value next : ptr) (h : Heap.heap Node) : ptr * Heap.heap Node :=
  let '(r_value, h) := Heap.malloc blank h in
  let h := set_data r_value (Int.mul (data_of value h) (data_of value h)) h in
  let h := set_next r_value next h in
  (r_value, h).

(** The sample list of [main]: 1 -> 2 -> 3 -> NULL. *)
Definition sample (h : Heap.heap Node) : ptr * Heap.heap Node :=
  let '(head, h) := Heap.malloc blank h in
  let h := set_data head 1 h in
  let '(p, h) := Heap.malloc blank h in
  let h := set_next head p h in
  let h := set_data (next_of head h) 2 h in
  let '(p, h) := Heap.malloc blank h in
  let h := set_next (next_of head h) p h in
  let h := set_data (next_of (next_of head h) h) 3 h in
  let h := set_next (next_of (next_of head h) h) NULL h in
  (head, h).

(** <<
    for(Node* ptr = head; ptr != NULL; ptr = ptr->next)
        printf("%d -> ", ptr->data);
    >>
    The numbers printed. *)
Fixpoint print (fuel : nat) (p : ptr) (h : Heap.heap Node) : option (list Z) :=
  if p =? NULL then Some []
  else
    match fuel with
    | O => None
    | S fuel' => out ← print fuel' (next_of p h) h; Some (data_of p h :: out)
    end.

(** <<
    while(head) { Node* temp = head; head = head->next; free(temp); }
    >> *)
Fixpoint cleanup (fuel : nat) (head : ptr) (h : Heap.heap Node)
    : option (Heap.heap Node) :=
  if head =? NULL then Some h
  else
    match fuel with
    | O => None
    | S fuel' => cleanup fuel' (next_of head h) (Heap.free head h)
    end.

(** [main]: what it prints for the original list and for the mapped
    list, and the heap it leaves. *)
Definition main (fuel : nat) : option (list Z * list Z * Heap.heap Node) :=
  let '(head, h) := sample Heap.empty in
  original ← print fuel head h;
  '(new_head, h) ← Chains.map_s fuel head findnext body h;
  mapped ← print fuel new_head h;
  h ← cleanup fuel head h;
  h ← cleanup fuel new_head h;
  Some (original, mapped, h).

(** The nodes of the sample list and the store right before [map_s]. *)
Definition sample_head : ptr := (sample Heap.empty).1.
Definition sample_heap : Heap.heap Node := (sample Heap.empty).2.

(** The data of the nodes at the addresses [l]. *)
Definition data_at (l : list ptr) (h : Heap.heap Node) : list Z :=
  (λ p, data_of p h) <$> l.

(** [{ return acc + value->data; }], the reducer of the usage note of
    [fold_s], next to a counter of its invocations. *)
Definition sum_counting (acc : Z) (value : ptr) (w : Heap.heap Node * nat)
    : Z * (Heap.heap Node * nat) :=
  (Int.add acc (data_of value w.1), (w.1, S w.2)).

(** [{ return value->next; }] in [fold_s], where [acc] is in scope too. *)
Definition next_counting (acc : Z) (value : ptr) (w : Heap.heap Node * nat)
    : ptr * (Heap.heap Node * nat) :=
  (next_of value w.1, w).

(** [value->data * value->data] *)
Definition square (d : Z) : Z := Int.mul d d.

(** Where the nodes that [map_s] allocates for the chain [l] end up when
    the allocation mark stands at [b]: the node for the last element is
    allocated first. *)
Fixpoint fresh (b : Z) (l : list ptr) : list ptr :=
  match l with
  | [] => []
  | _ :: l' => (b + Z.of_nat (length l')) :: fresh b l'
  end.

(** Between two heaps: the allocation mark has not gone down and no
    struct below the old mark has changed. *)
Definition extends (h h' : Heap.heap Node) : Prop :=
  Heap.brk h ≤ Heap.brk h' ∧
  ∀ a, a < Heap.brk h → Heap.nodes h' !! a = Heap.nodes h !! a.

(** The chain predicate for a store with the invocation counter. *)
Definition chain_counted (l : list ptr) (w : Heap.heap Node * nat) : Prop :=
  Heap.chain next l w.1.

(** A two-node cycle: 1 -> 2 -> 1 -> ... *)
Definition cyclic_heap : Heap.heap Node :=
  Heap.Mk (<[1 := mkNode 10 2]> (<[2 := mkNode 20 1]> ∅)) 3.

(** The traversal stands on a node of that cycle. *)
Definition on_cycle (x : ptr) (h : Heap.heap Node) : Prop :=
  h = cyclic_heap ∧ (x = 1 ∨ x = 2).

Definition on_cycle_counted (x : ptr) (w : Heap.heap Node * nat) : Prop :=
  on_cycle x w.1.

End MapStruct.

(** ** [linked_list_fold_example.c] *)

Module FoldStruct.

(** <<
    typedef struct linked_struct_s {
      char *item;
      struct linked_struct_s *next;
    } linked_s;
    >>
    A [char *] is modelled by the string it points to. *)
Record linked_s : Type := mk_linked { item : string; next : ptr }.

Definition blank : linked_s := mk_linked EmptyString NULL.

(** The store of [main]: the cells hold [argv], the captured scope is the
    heap of [linked_s] structs. *)
Definition world : Type := Arrays.store string (Heap.heap linked_s).

Definition with_heap (s : world) (h : Heap.heap linked_s) : world :=
  Arrays.Store (Arrays.cells s) h.

Definition item_of (p : ptr) (s : world) : string :=
  Heap.field item EmptyString p (Arrays.env s).
Definition next_of (p : ptr) (s : world) : ptr :=
  Heap.field next NULL p (Arrays.env s).

(** <<
    { linked_s *le = malloc(sizeof(linked_s));
      le->next = acc;
      le->item = value;
      return le; }
    >> *)
Definition push (acc : ptr) (value : string) (s : world) : ptr * world :=
  let '(le, h) := Heap.malloc blank (Arrays.env s) in
  let h := Heap.assign (λ n, mk_linked (item n) acc) le h in
  let h := Heap.assign (λ n, mk_linked value (next n)) le h in
  (le, with_heap s h).

(** [{ return value->next; }] *)
Definition successor (acc : Z) (value : ptr) (s : world) : ptr * world :=
  (next_of value s, s).

(** [{ return acc + strlen(value->item); }]: the sum is taken in
    [size_t] and converted to [int], which is the wrap-around of the
    mathematical sum. *)
Definition add_strlen (acc : Z) (value : ptr) (s : world) : Z * world :=
  (Int.wrap (acc + Z.of_nat (String.length (item_of value s))), s).

(** [{ linked_s *r=value->next; free(value); return r; }] *)
Definition release (value : ptr) (s : world) : ptr * world :=
  let r := next_of value s in
  (r, with_heap s (Heap.free value (Arrays.env s))).

(** [main]: the total length it prints and the store it leaves. *)
Definition main (fuel : nat) (argc : Z) (argv : Z) (s : world)
    : option (Z * world) :=
  '(ls, s) ← Arrays.fold argv argc push NULL s;
  '(total_length, s) ← Chains.fold_s fuel ls successor add_strlen 0 s;
  s ← Chains.foreach_s fuel ls release s;
  Some (total_length, s).

(** A command line [prog -o out.txt], with [argv] at address 8. *)
Definition sample_world : world :=
  Arrays.Store
    (Arrays.place 8 ["prog"; "-o"; "out.txt"]%string ∅) Heap.empty.

(** The list [main] has built from that command line, with its store. *)
Definition sample_list : ptr * world :=
  default (NULL, sample_world) (Arrays.fold 8 3 push NULL sample_world).

(** The chain predicate on the heap of a store, with the elements
    pairwise distinct. *)
Definition chain (l : list ptr) (s : world) : Prop :=
  NoDup l ∧ Heap.chain next l (Arrays.env s).

End FoldStruct.

(** ** Lambdas without side effects *)

Module Pure.

(** A reducer [{ return r(acc, value); }] that touches nothing. *)
Definition reducer {E U A : Type} (r : A → E → A)
    (acc : A) (value : E) (s : Arrays.store E U) : A * Arrays.store E U :=
  (r acc value, s).

(** A transform [{ return f(value); }] that touches nothing. *)
Definition transformer {E U : Type} (f : E → E)
    : E → Arrays.store E U → E * Arrays.store E U :=
  Arrays.on_env (λ value u, (f value, u)).

(** The sum of a sequence of integers, in the integers. *)
Definition total (ds : list Z) : Z := foldr Z.add 0 ds.

End Pure.

(** ** [map_struct_example.c], from any list *)

Module MapStructRun.
Import MapStruct.

(** [main] from the first [printf] on, for the list at [head] in heap [h]:
    print, [map_s], print, and the two cleanup loops. *)
Definition main_from (fuel : nat) (head : ptr) (h : Heap.heap Node)
    : option (list Z * list Z * Heap.heap Node) :=
  original ← print fuel head h;
  '(new_head, h) ← Chains.map_s fuel head findnext body h;
  mapped ← print fuel new_head h;
  h ← cleanup fuel head h;
  h ← cleanup fuel new_head h;
  Some (original, mapped, h).

(** The transform of the example with [r_value->next = NULL;] in place of
    [r_value->next = next;]: it does not wire the successor it is given. *)
Definition body_unwired (value next : ptr) (h : Heap.heap Node)
    : ptr * Heap.heap Node :=
  let '(r_value, h) := Heap.malloc blank h in
  let h := set_data r_value (Int.mul (data_of value h) (data_of value h)) h in
  let h := set_next r_value NULL h in
  (r_value, h).

End MapStructRun.

(** ** [linked_list_fold_example.c], vocabulary *)

Module FoldStructRun.
Import FoldStruct.

(** The addresses of [n] structs allocated one after the other from the
    mark [b], the latest first. *)
Fixpoint pushed (b : Z) (n : nat) : list ptr :=
  match n with
  | O => []
  | S k => (b + Z.of_nat k) :: pushed b k
  end.

(** The items of the structs at the addresses [l]. *)
Definition items_at (l : list ptr) (s : world) : list string :=
  (λ p, item_of p s) <$> l.

(** The structs at the addresses [l] are a chain in the heap of the store. *)
Definition linked (l : list ptr) (s : world) : Prop :=
  Heap.chain next l (Arrays.env s).

(** The lengths of a sequence of strings, summed in the integers. *)
Definition strlen_total (items : list string) : Z :=
  Pure.total ((λ it, Z.of_nat (String.length it)) <$> items).

End FoldStructRun.

(** ** [map_s] on a stack of bounded depth *)

Module Stack.
Section Stack.

Context {W : Type}.

(** How a run of [map_s] ends: it returns a value, or the recursion of
    [aux] runs out of stack. *)
Inductive outcome (T : Type) : Type :=
  | Returned (t : T)
  | Exhausted.
Arguments Returned {T} t.
Arguments Exhausted {T}.

(** <<
    type aux(type value) {
      if(!value) return value;
      else {
        type next = lambda(type, (type next), findnext)(value);
        next = aux(next);
        return lambda(type, (), body)();
      }
    }
    >>
    [aux] calls itself before it calls [body], so every call stays on the
    stack until the calls after it have returned: the depth reached is one
    activation per element, and one more for the call on [NULL].
    [frames] is the number of activations of [aux] the stack has room
    for. *)
Fixpoint aux (findnext : ptr → W → ptr * W) (body : ptr → ptr → W → ptr * W)
    (frames : nat) (value : ptr) (w : W) : outcome (ptr * W) :=
  match frames with
  | O => Exhausted
  | S frames' =>
      if value =? NULL then Returned (value, w)
      else
        let '(next, w1) := lambda findnext value w in
        match aux findnext body frames' next w1 with
        | Returned (next', w2) => Returned (lambda (body value next') w2)
        | Exhausted => Exhausted
        end
  end.

(** [aux(first_e)] *)
Definition map_s (frames : nat) (first_e : ptr)
    (findnext : ptr → W → ptr * W) (body : ptr → ptr → W → ptr * W)
    (w : W) : outcome (ptr * W) :=
  aux findnext body frames first_e w.

End Stack.
Arguments Returned {T} t.
Arguments Exhausted {T}.
End Stack.

(** ** A list of any length *)

Module Line.
Import MapStruct.

(** [n] nodes at the addresses 1 to [n]: node [k] holds [k] and links to
    node [k - 1], and node 1 to [NULL]. *)
Fixpoint nodes_of (n : nat) : gmap Z Node :=
  match n with
  | O => ∅
  | S k => <[Z.of_nat (S k) := mkNode (Z.of_nat (S k)) (Z.of_nat k)]> (nodes_of k)
  end.

Definition heap_of (n : nat) : Heap.heap Node :=
  Heap.Mk (nodes_of n) (Z.of_nat n + 1).

(** Its elements, from the head [n] down to 1. *)
Definition elements (n : nat) : list ptr := FoldStructRun.pushed 1 n.

End Line.

(** * Properties of the array combinators *)

Module ArrayFacts.
Import Arrays.
Section ArrayFacts.

Context {E U : Type}.
Implicit Types (s : store E U) (l : list E) (a i n size : Z).

Lemma incr_below i : i < Int.INT_MAX → Int.incr i = Some (i + 1).
Proof.
  intros Hi. unfold Int.incr.
  destruct (Z.ltb_spec i Int.INT_MAX); [reflexivity | lia].
Qed.

(** *** Unfolding the loops *)

Lemma fold_loop_exit {A} fuel a size (body : A → E → store E U → A * store E U)
    i (acc : A) s :
  size ≤ i → fold_loop fuel a size body i acc s = Some (acc, s).
Proof.
  intros Hi. destruct fuel; simpl;
    destruct (Z.ltb_spec i size); (reflexivity || lia).
Qed.

Lemma fold_loop_step {A} fuel a size (body : A → E → store E U → A * store E U)
    i (acc : A) s :
  i < size →
  fold_loop (S fuel) a size body i acc s =
    value ← load (a + i) s;
    let '(acc', s') := body acc value s in
    i' ← Int.incr i;
    fold_loop fuel a size body i' acc' s'.
Proof.
  intros Hi. simpl. destruct (Z.ltb_spec i size); [reflexivity | lia].
Qed.

Lemma map_loop_exit fuel a size (body : E → store E U → E * store E U) out i s :
  size ≤ i → map_loop fuel a size body out i s = Some s.
Proof.
  intros Hi. destruct fuel; simpl;
    destruct (Z.ltb_spec i size); (reflexivity || lia).
Qed.

Lemma map_loop_step fuel a size (body : E → store E U → E * store E U) out i s :
  i < size →
  map_loop (S fuel) a size body out i s =
    value ← load (a + i) s;
    let '(r, s') := body value s in
    s'' ← write (out + i) r s';
    i' ← Int.incr i;
    map_loop fuel a size body out i' s''.
Proof.
  intros Hi. simpl. destruct (Z.ltb_spec i size); [reflexivity | lia].
Qed.

(** *** Fuel

    The fuel [fold] and [map] start with never runs out before the guard
    fails: more fuel changes nothing. *)

Opaque fold_loop map_loop.

Lemma fold_loop_fuel {A} a size (body : A → E → store E U → A * store E U) :
  ∀ fuel1 fuel2 i (acc : A) s,
    (Z.to_nat (size - i) ≤ fuel1)%nat → (Z.to_nat (size - i) ≤ fuel2)%nat →
    fold_loop fuel1 a size body i acc s = fold_loop fuel2 a size body i acc s.
Proof.
  induction fuel1 as [|fuel1 IH]; intros fuel2 i acc s H1 H2.
  - rewrite !fold_loop_exit by lia. reflexivity.
  - destruct (Z_lt_le_dec i size) as [Hi|Hi];
      [|rewrite !fold_loop_exit by lia; reflexivity].
    destruct fuel2 as [|fuel2]; [lia|].
    rewrite !fold_loop_step by lia.
    destruct (load (a + i) s) as [v|]; simpl; [|reflexivity].
    destruct (body acc v s) as [acc' s'].
    unfold Int.incr. destruct (i <? Int.INT_MAX); simpl; [|reflexivity].
    apply IH; lia.
Qed.

Lemma map_loop_fuel a size (body : E → store E U → E * store E U) out :
  ∀ fuel1 fuel2 i s,
    (Z.to_nat (size - i) ≤ fuel1)%nat → (Z.to_nat (size - i) ≤ fuel2)%nat →
    map_loop fuel1 a size body out i s = map_loop fuel2 a size body out i s.
Proof.
  induction fuel1 as [|fuel1 IH]; intros fuel2 i s H1 H2.
  - rewrite !map_loop_exit by lia. reflexivity.
  - destruct (Z_lt_le_dec i size) as [Hi|Hi];
      [|rewrite !map_loop_exit by lia; reflexivity].
    destruct fuel2 as [|fuel2]; [lia|].
    rewrite !map_loop_step by lia.
    destruct (load (a + i) s) as [v|]; simpl; [|reflexivity].
    destruct (body v s) as [r s'].
    destruct (write (out + i) r s') as [s''|]; simpl; [|reflexivity].
    unfold Int.incr. destruct (i <? Int.INT_MAX); simpl; [|reflexivity].
    apply IH; lia.
Qed.

(** *** The last iteration *)

Lemma fold_loop_snoc {A} a n (body : A → E → store E U → A * store E U) :
  n < Int.INT_MAX →
  ∀ fuel i (acc : A) s,
    0 ≤ i ≤ n → (Z.to_nat (n - i) ≤ fuel)%nat →
    fold_loop (S fuel) a (n + 1) body i acc s =
      '(acc1, s1) ← fold_loop fuel a n body i acc s;
      value ← load (a + n) s1;
      Some (body acc1 value s1).
Proof.
  intros Hn fuel. induction fuel as [|fuel IH]; intros i acc s Hi Hfuel.
  - assert (i = n) as -> by lia.
    rewrite fold_loop_step by lia. rewrite (fold_loop_exit 0) by lia. simpl.
    destruct (load (a + n) s) as [v|]; simpl; [|reflexivity].
    destruct (body acc v s) as [acc' s'].
    rewrite incr_below by lia. simpl. apply fold_loop_exit. lia.
  - destruct (decide (i = n)) as [->|Hne].
    + rewrite fold_loop_step by lia. rewrite (fold_loop_exit (S fuel)) by lia.
      simpl. destruct (load (a + n) s) as [v|]; simpl; [|reflexivity].
      destruct (body acc v s) as [acc' s'].
      rewrite incr_below by lia. simpl. apply fold_loop_exit. lia.
    + rewrite fold_loop_step by lia. rewrite (fold_loop_step fuel) by lia.
      destruct (load (a + i) s) as [v|]; simpl; [|reflexivity].
      destruct (body acc v s) as [acc' s'].
      rewrite incr_below by lia. simpl. apply IH; lia.
Qed.

Lemma map_loop_snoc a n (body : E → store E U → E * store E U) out :
  n < Int.INT_MAX →
  ∀ fuel i s,
    0 ≤ i ≤ n → (Z.to_nat (n - i) ≤ fuel)%nat →
    map_loop (S fuel) a (n + 1) body out i s =
      s1 ← map_loop fuel a n body out i s;
      value ← load (a + n) s1;
      let '(r, s2) := body value s1 in write (out + n) r s2.
Proof.
  intros Hn fuel. induction fuel as [|fuel IH]; intros i s Hi Hfuel.
  - assert (i = n) as -> by lia.
    rewrite map_loop_step by lia. rewrite (map_loop_exit 0) by lia. simpl.
    destruct (load (a + n) s) as [v|]; simpl; [|reflexivity].
    destruct (body v s) as [r s'].
    destruct (write (out + n) r s') as [s''|]; simpl; [|reflexivity].
    rewrite incr_below by lia. simpl. apply map_loop_exit. lia.
  - destruct (decide (i = n)) as [->|Hne].
    + rewrite map_loop_step by lia. rewrite (map_loop_exit (S fuel)) by lia.
      simpl. destruct (load (a + n) s) as [v|]; simpl; [|reflexivity].
      destruct (body v s) as [r s'].
      destruct (write (out + n) r s') as [s''|]; simpl; [|reflexivity].
      rewrite incr_below by lia. simpl. apply map_loop_exit. lia.
    + rewrite map_loop_step by lia. rewrite (map_loop_step fuel) by lia.
      destruct (load (a + i) s) as [v|]; simpl; [|reflexivity].
      destruct (body v s) as [r s'].
      destruct (write (out + i) r s') as [s''|]; simpl; [|reflexivity].
      rewrite incr_below by lia. simpl. apply IH; lia.
Qed.

(** *** Closed forms *)

Lemma fold_loop_reduce {A} a l (body : A → E → store E U → A * store E U) :
  Z.of_nat (length l) ≤ Int.INT_MAX →
  (∀ acc v s, array_at a l s → array_at a l (body acc v s).2) →
  ∀ l2 l1 fuel (acc : A) s,
    l = l1 ++ l2 → (length l2 ≤ fuel)%nat → array_at a l s →
    fold_loop fuel a (Z.of_nat (length l)) body (Z.of_nat (length l1)) acc s =
      Some (reduce body l2 acc s).
Proof.
  intros Hmax Hframe l2.
  induction l2 as [|v l2 IH]; intros l1 fuel acc s Hl Hfuel Harr.
  - rewrite app_nil_r in Hl. subst l1. apply fold_loop_exit. lia.
  - destruct fuel as [|fuel]; [simpl in Hfuel; lia|].
    assert (Hlen : length l = (length l1 + S (length l2))%nat)
      by (rewrite Hl, length_app; reflexivity).
    rewrite fold_loop_step by lia.
    assert (Hv : load (a + Z.of_nat (length l1)) s = Some v).
    { apply Harr. rewrite Hl. apply list_lookup_middle. reflexivity. }
    rewrite Hv. simpl.
    specialize (Hframe acc v s Harr).
    destruct (body acc v s) as [acc' s']. simpl in Hframe.
    rewrite incr_below by lia. simpl.
    replace (Z.of_nat (length l1) + 1) with (Z.of_nat (length (l1 ++ [v])))
      by (rewrite length_app; simpl; lia).
    apply IH; [|simpl in Hfuel; lia|assumption].
    rewrite Hl, <- app_assoc. reflexivity.
Qed.

Lemma transform_length (g : E → U → E * U) l u :
  length (transform g l u).1 = length l.
Proof.
  revert u. induction l as [|v l IH]; intros u; simpl; [reflexivity|].
  destruct (g v u) as [r u']. specialize (IH u').
  destruct (transform g l u') as [rs u'']. simpl in *. congruence.
Qed.

Lemma write_allocated a (v : E) s :
  is_Some (cells s !! a) →
  write a v s = Some (Store (<[a := v]> (cells s)) (env s)).
Proof. intros [w Hw]. unfold write. rewrite Hw. reflexivity. Qed.

Lemma map_loop_transform a out n (g : E → U → E * U) :
  n ≤ Int.INT_MAX → out ≤ a ∨ a + n ≤ out →
  ∀ l2 i fuel s,
    0 ≤ i → i + Z.of_nat (length l2) = n → (length l2 ≤ fuel)%nat →
    (∀ (k : nat) v, l2 !! k = Some v → cells s !! (a + i + Z.of_nat k) = Some v) →
    (∀ k, i ≤ k < n → is_Some (cells s !! (out + k))) →
    ∃ s', map_loop fuel a n (on_env g) out i s = Some s' ∧
          env s' = (transform g l2 (env s)).2 ∧
          (∀ (k : nat) v, (transform g l2 (env s)).1 !! k = Some v →
                          cells s' !! (out + i + Z.of_nat k) = Some v) ∧
          (∀ b, ¬ (out + i ≤ b < out + n) → cells s' !! b = cells s !! b).
Proof.
  intros Hmax Hsep l2.
  induction l2 as [|v l2 IH]; intros i fuel s Hi Hn Hfuel Hsrc Hdst.
  - simpl in Hn. exists s. rewrite map_loop_exit by lia. simpl.
    split; [reflexivity|]. split; [reflexivity|]. split; [|reflexivity].
    intros k w Hk. rewrite lookup_nil in Hk. discriminate.
  - destruct fuel as [|fuel]; [simpl in Hfuel; lia|].
    simpl length in Hn. rewrite map_loop_step by lia.
    assert (Hv : load (a + i) s = Some v).
    { specialize (Hsrc O v eq_refl). simpl in Hsrc.
      rewrite Z.add_0_r in Hsrc. exact Hsrc. }
    rewrite Hv. simpl. unfold on_env at 1.
    destruct (g v (env s)) as [r u] eqn:Hg.
    rewrite write_allocated by (apply Hdst; lia). simpl.
    rewrite incr_below by lia. simpl.
    destruct (IH (i + 1) fuel (Store (<[out + i := r]> (cells s)) u))
      as (s' & Hrun & Henv & Hout & Hrest).
    + lia.
    + lia.
    + simpl in Hfuel. lia.
    + intros k w Hk. simpl.
      assert (Z.of_nat k < Z.of_nat (length l2))
        by (apply inj_lt, lookup_lt_is_Some; eauto).
      rewrite lookup_insert_ne by lia.
      specialize (Hsrc (S k) w Hk).
      replace (a + (i + 1) + Z.of_nat k) with (a + i + Z.of_nat (S k)) by lia.
      exact Hsrc.
    + intros k Hk. simpl.
      rewrite lookup_insert_ne by lia. apply Hdst. lia.
    + exists s'. split; [exact Hrun|]. simpl in Henv, Hout, Hrest.
      cbn [transform].
      destruct (transform g l2 u) as [rs u'] eqn:Ht.
      simpl in *. split; [exact Henv|]. split.
      * intros [|k] w Hk; simpl in Hk.
        -- injection Hk as <-. simpl. rewrite Z.add_0_r.
           rewrite Hrest by lia. apply lookup_insert_eq.
        -- replace (out + i + Z.of_nat (S k)) with (out + (i + 1) + Z.of_nat k)
             by lia.
           apply Hout. exact Hk.
      * intros b Hb. rewrite Hrest by lia. apply lookup_insert_ne. lia.
Qed.

Lemma map_loop_identity a n :
  n ≤ Int.INT_MAX →
  ∀ l2 i fuel s,
    0 ≤ i → i + Z.of_nat (length l2) = n → (length l2 ≤ fuel)%nat →
    (∀ (k : nat) v, l2 !! k = Some v → cells s !! (a + i + Z.of_nat k) = Some v) →
    map_loop fuel a n identity a i s = Some s.
Proof.
  intros Hmax l2.
  induction l2 as [|v l2 IH]; intros i fuel s Hi Hn Hfuel Hsrc.
  - simpl in Hn. apply map_loop_exit. lia.
  - destruct fuel as [|fuel]; [simpl in Hfuel; lia|].
    simpl length in Hn. rewrite map_loop_step by lia.
    assert (Hv : cells s !! (a + i) = Some v).
    { specialize (Hsrc O v eq_refl). simpl in Hsrc.
      rewrite Z.add_0_r in Hsrc. exact Hsrc. }
    unfold load. rewrite Hv. simpl. unfold write. rewrite Hv.
    rewrite insert_id by exact Hv. simpl.
    rewrite incr_below by lia. simpl.
    replace (Store (cells s) (env s)) with s by (destruct s; reflexivity).
    apply (IH (i + 1)); [lia|lia|simpl in Hfuel; lia|].
    intros k w Hk. specialize (Hsrc (S k) w Hk).
    replace (a + (i + 1) + Z.of_nat k) with (a + i + Z.of_nat (S k)) by lia.
    exact Hsrc.
Qed.

Lemma place_lookup_below a b l (m : gmap Z E) :
  b < a → place a l m !! b = m !! b.
Proof.
  revert a. induction l as [|v l IH]; intros a Hb; simpl; [reflexivity|].
  rewrite lookup_insert_ne by lia. apply IH. lia.
Qed.

Lemma place_array_at a l (m : gmap Z E) (u : U) :
  array_at a l (Store (place a l m) u).
Proof.
  revert a. induction l as [|v l IH]; intros a k w Hk; simpl.
  - rewrite lookup_nil in Hk. discriminate.
  - destruct k as [|k]; simpl in Hk.
    + injection Hk as <-. simpl. rewrite Z.add_0_r. apply lookup_insert_eq.
    + rewrite lookup_insert_ne by lia.
      replace (a + Z.of_nat (S k)) with (a + 1 + Z.of_nat k) by lia.
      apply (IH (a + 1) k w Hk).
Qed.

Lemma reduce_recording {A} (f : A → E → store E U → A * store E U) l :
  ∀ (acc : A) c u log,
    reduce (recording f) l acc (Store c (u, log)) =
      let '(r, s') := reduce f l acc (Store c u) in
      (r, Store (cells s') (env s', log ++ l)).
Proof.
  induction l as [|v l IH]; intros acc c u log; simpl.
  - rewrite app_nil_r. reflexivity.
  - unfold recording at 1. simpl.
    destruct (f acc v (Store c u)) as [acc' [c' u']]. simpl.
    rewrite IH. rewrite <- app_assoc. reflexivity.
Qed.

Lemma array_at_cells a l (s1 : store E U) {U'} (s2 : store E U') :
  cells s1 = cells s2 → array_at a l s1 → array_at a l s2.
Proof. intros Hc H k v Hk. rewrite <- Hc. apply H, Hk. Qed.

Transparent fold_loop map_loop.

End ArrayFacts.

(** C2. [fold] is the left fold.  For every array, reducer and initial
    accumulator: on length 0 it returns the initial accumulator and the
    store as they are; the run over [n + 1] elements is the run over the
    first [n], followed by one call of the reducer on the accumulator
    reached so far and element [n], whose return value is the result, so
    the indices are visited in the order 0, 1, ..., n-1; hence, when the
    array holds the sequence [l] and the reducer leaves the array alone,
    the result is the left-to-right reduction of [l], and a reducer that
    records its arguments has seen exactly [l], in order.  With [+] over
    1, 2, 3, 4, 5 from 0 the result is 15; with the dash reducer over
    a, b, c from the empty string it is -a-b-c. *)
Theorem fold_is_left_fold :
  (∀ (E U A : Type) (in_array : Z) (body : A → E → store E U → A * store E U)
     (init_acc : A) (s : store E U),
      fold in_array 0 body init_acc s = Some (init_acc, s)
      ∧ (∀ n, 0 ≤ n < Int.INT_MAX →
           fold in_array (n + 1) body init_acc s =
             '(acc, s1) ← fold in_array n body init_acc s;
             value ← load (in_array + n) s1;
             Some (body acc value s1))
      ∧ (∀ l : list E,
           Z.of_nat (length l) ≤ Int.INT_MAX →
           array_at in_array l s →
           (∀ acc v s0, array_at in_array l s0 →
                        array_at in_array l (body acc v s0).2) →
           fold in_array (Z.of_nat (length l)) body init_acc s =
             Some (reduce body l init_acc s)
           ∧ fold in_array (Z.of_nat (length l)) (recording body) init_acc
               (Store (cells s) (env s, [])) =
             Some (let '(r, s') := reduce body l init_acc s in
                   (r, Store (cells s') (env s', l)))))
  ∧ fst <$> fold Usage.numbers 5 Usage.plus 0 Usage.numbers_store = Some 15
  ∧ fst <$> fold Usage.words 3 Usage.dash EmptyString Usage.words_store
      = Some "-a-b-c"%string.
Proof.
  split; [|split; reflexivity].
  intros E U A in_array body init_acc s. split; [reflexivity|]. split.
  - intros n Hn. unfold fold.
    replace (Z.to_nat (n + 1)) with (S (Z.to_nat n)) by lia.
    apply fold_loop_snoc; lia.
  - intros l Hmax Harr Hframe. unfold fold. rewrite Nat2Z.id. split.
    + apply (fold_loop_reduce in_array l body Hmax Hframe l []);
        [reflexivity|lia|exact Harr].
    + rewrite (fold_loop_reduce in_array l (recording body) Hmax) with (l2 := l) (l1 := []);
        [|..|reflexivity|lia|].
      * rewrite reduce_recording.
        replace (Store (cells s) (env s)) with s by (destruct s; reflexivity).
        reflexivity.
      * intros acc v s0 H0. unfold recording.
        pose proof (Hframe acc v (Store (cells s0) (env s0).1)) as Hf.
        destruct (body acc v (Store (cells s0) (env s0).1)) as [r s']. simpl in *.
        eapply array_at_cells; [|apply Hf; eapply array_at_cells; [|exact H0]];
          reflexivity.
      * eapply array_at_cells; [|exact Harr]. reflexivity.
Qed.

Lemma fold_is_left_fold_witness :
  Z.of_nat (length [1; 2; 3; 4; 5]) ≤ Int.INT_MAX
  ∧ array_at Usage.numbers [1; 2; 3; 4; 5] Usage.numbers_store
  ∧ fold Usage.numbers (Z.of_nat (length [1; 2; 3; 4; 5])) Usage.plus 0
      Usage.numbers_store
    = Some (reduce Usage.plus [1; 2; 3; 4; 5] 0 Usage.numbers_store)
  ∧ 0 ≤ 4 < Int.INT_MAX
  ∧ fold Usage.numbers (4 + 1) Usage.plus 0 Usage.numbers_store
    = '(acc, s1) ← fold Usage.numbers 4 Usage.plus 0 Usage.numbers_store;
      value ← load (Usage.numbers + 4) s1;
      Some (Usage.plus acc value s1).
Proof.
  assert (H1 : Z.of_nat (length [1; 2; 3; 4; 5]) ≤ Int.INT_MAX)
    by (vm_compute; discriminate).
  assert (H2 : array_at Usage.numbers [1; 2; 3; 4; 5] Usage.numbers_store)
    by apply place_array_at.
  assert (H4 : 0 ≤ 4 < Int.INT_MAX) by (unfold Int.INT_MAX; lia).
  split; [exact H1|]. split; [exact H2|].
  destruct fold_is_left_fold as [H _].
  destruct (H Z unit Z Usage.numbers Usage.plus 0 Usage.numbers_store)
    as (_ & Hlast & H3).
  split; [|split; [exact H4|exact (Hlast 4 H4)]].
  apply (H3 [1; 2; 3; 4; 5] H1 H2).
  intros acc v s0 H0. exact H0.
Defined.

(** C5. [map] writes [out_array[i] = body(in_array[i])] for each index in
    increasing order.  For every source, destination, transform and store:
    on length 0 nothing happens; the run over [n + 1] elements is the run
    over the first [n], followed by reading element [n] of the source,
    one call of the transform on it, and one write of the value returned
    to element [n] of the destination.  Hence, when the source holds the
    sequence [l], the destination has [length l] allocated cells and does
    not start inside the source past its first cell, and the transform
    works on its argument and the captured variables, the destination ends
    up holding the transformed sequence, one output per input in the same
    order, and no other cell changes.  Squaring 1, 2, 3 gives 1, 4, 9. *)
Theorem map_writes_each_element :
  (∀ (E U : Type) (in_array out_array : Z)
     (body : E → store E U → E * store E U) (s : store E U),
      map in_array 0 body out_array s = Some s
      ∧ (∀ n, 0 ≤ n < Int.INT_MAX →
           map in_array (n + 1) body out_array s =
             s1 ← map in_array n body out_array s;
             value ← load (in_array + n) s1;
             let '(r, s2) := body value s1 in write (out_array + n) r s2)
      ∧ (∀ (g : E → U → E * U) (l : list E),
           Z.of_nat (length l) ≤ Int.INT_MAX →
           array_at in_array l s →
           allocated out_array (Z.of_nat (length l)) s →
           out_array ≤ in_array ∨ in_array + Z.of_nat (length l) ≤ out_array →
           ∃ s', map in_array (Z.of_nat (length l)) (on_env g) out_array s = Some s'
                 ∧ array_at out_array (transform g l (env s)).1 s'
                 ∧ length (transform g l (env s)).1 = length l
                 ∧ env s' = (transform g l (env s)).2
                 ∧ ∀ b, ¬ (out_array ≤ b < out_array + Z.of_nat (length l)) →
                        cells s' !! b = cells s !! b))
  ∧ contents 200 3 <$>
      map 100 3 (on_env Usage.square) 200
        (Store (place 100 [1; 2; 3] (place 200 [0; 0; 0] ∅)) tt)
    = Some [Some 1; Some 4; Some 9].
Proof.
  split; [|reflexivity].
  intros E U in_array out_array body s. split; [reflexivity|]. split.
  - intros n Hn. unfold map.
    replace (Z.to_nat (n + 1)) with (S (Z.to_nat n)) by lia.
    apply map_loop_snoc; lia.
  - intros g l Hmax Harr Halloc Hsep. unfold map. rewrite Nat2Z.id.
    destruct (map_loop_transform in_array out_array (Z.of_nat (length l)) g
                Hmax Hsep l 0 (length l) s) as (s' & Hrun & Henv & Hout & Hrest).
    + lia.
    + lia.
    + lia.
    + intros k v Hk. rewrite Z.add_0_r. apply Harr, Hk.
    + intros k Hk. apply Halloc. lia.
    + exists s'. split; [exact Hrun|]. split.
      * intros k v Hk. specialize (Hout k v Hk).
        rewrite Z.add_0_r in Hout. exact Hout.
      * split; [apply transform_length|]. split; [exact Henv|].
        intros b Hb. apply Hrest. lia.
Qed.

Lemma map_writes_each_element_witness :
  Z.of_nat (length [1; 2; 3; 4; 5]) ≤ Int.INT_MAX
  ∧ array_at Usage.arr [1; 2; 3; 4; 5] Usage.arr_store
  ∧ allocated Usage.squared (Z.of_nat (length [1; 2; 3; 4; 5])) Usage.arr_store
  ∧ (∃ s', map Usage.arr (Z.of_nat (length [1; 2; 3; 4; 5]))
             (on_env Usage.square) Usage.squared Usage.arr_store = Some s'
           ∧ array_at Usage.squared [1; 4; 9; 16; 25] s')
  ∧ 0 ≤ 4 < Int.INT_MAX
  ∧ map Usage.arr (4 + 1) (on_env Usage.square) Usage.squared Usage.arr_store
    = s1 ← map Usage.arr 4 (on_env Usage.square) Usage.squared Usage.arr_store;
      value ← load (Usage.arr + 4) s1;
      let '(r, s2) := on_env Usage.square value s1 in
      write (Usage.squared + 4) r s2.
Proof.
  assert (H1 : Z.of_nat (length [1; 2; 3; 4; 5]) ≤ Int.INT_MAX)
    by (vm_compute; discriminate).
  assert (H2 : array_at Usage.arr [1; 2; 3; 4; 5] Usage.arr_store)
    by apply place_array_at.
  assert (H3 : allocated Usage.squared (Z.of_nat (length [1; 2; 3; 4; 5]))
                 Usage.arr_store).
  { intros k Hk. simpl in Hk.
    assert (k = 0 ∨ k = 1 ∨ k = 2 ∨ k = 3 ∨ k = 4) as Hcases by lia.
    destruct Hcases as [->|[->|[->|[->| ->]]]]; vm_compute; eauto. }
  split; [exact H1|]. split; [exact H2|]. split; [exact H3|].
  destruct map_writes_each_element as [H _].
  destruct (H Z unit Usage.arr Usage.squared (on_env Usage.square) Usage.arr_store)
    as (_ & Hlast & H4).
  assert (H5 : 0 ≤ 4 < Int.INT_MAX) by (unfold Int.INT_MAX; lia).
  split; [|split; [exact H5|exact (Hlast 4 H5)]].
  destruct (H4 Usage.square [1; 2; 3; 4; 5] H1 H2 H3) as (s' & Hrun & Hout & _).
  - right. vm_compute. discriminate.
  - exists s'. split; [exact Hrun|exact Hout].
Defined.

(** C8. [map] with the identity transform and the destination equal to the
    source leaves the store as it is: for every array holding a sequence
    [l], the call returns the store it started from, so every element of
    the array has the value it had before. *)
Theorem map_identity_in_place :
  ∀ (E U : Type) (a : Z) (l : list E) (s : store E U),
    Z.of_nat (length l) ≤ Int.INT_MAX →
    array_at a l s →
    map a (Z.of_nat (length l)) identity a s = Some s.
Proof.
  intros E U a l s Hmax Harr. unfold map. rewrite Nat2Z.id.
  apply (map_loop_identity a (Z.of_nat (length l)) Hmax l 0); [lia|lia|lia|].
  intros k v Hk. rewrite Z.add_0_r. apply Harr, Hk.
Qed.

Lemma map_identity_in_place_witness :
  Z.of_nat (length [1; 2; 3; 4; 5]) ≤ Int.INT_MAX
  ∧ array_at Usage.arr [1; 2; 3; 4; 5] Usage.arr_store
  ∧ map Usage.arr (Z.of_nat (length [1; 2; 3; 4; 5])) identity Usage.arr
      Usage.arr_store = Some Usage.arr_store.
Proof.
  assert (H1 : Z.of_nat (length [1; 2; 3; 4; 5]) ≤ Int.INT_MAX)
    by (vm_compute; discriminate).
  assert (H2 : array_at Usage.arr [1; 2; 3; 4; 5] Usage.arr_store)
    by apply place_array_at.
  split; [exact H1|]. split; [exact H2|].
  exact (map_identity_in_place Z unit Usage.arr [1; 2; 3; 4; 5] Usage.arr_store H1 H2).
Defined.

(** What the identity transform is safe from: a transform that reads the
    source element before its own gives 1, 3, 5, 7, 9 into a separate
    destination, and 1, 3, 6, 10, 15 when the destination is the source,
    because the earlier slots have been overwritten by then. *)
Example map_aliasing_hazard :
  contents Usage.squared 5 <$>
    map Usage.arr 5 (Usage.plus_previous Usage.arr) Usage.squared
      (Store (cells Usage.arr_store) 0)
  = Some [Some 1; Some 3; Some 5; Some 7; Some 9]
  ∧ contents Usage.arr 5 <$>
      map Usage.arr 5 (Usage.plus_previous Usage.arr) Usage.arr
        (Store (cells Usage.arr_store) 0)
    = Some [Some 1; Some 3; Some 6; Some 10; Some 15].
Proof. split; reflexivity. Qed.

(** C10. A size that is zero or negative is the empty range for both array
    combinators: the guard [i < size] fails at [i = 0], so [fold] returns
    the initial accumulator and the store as they are whatever the reducer
    is (a reducer that records its calls has recorded none), and [map]
    returns the store as it is, with no write to the destination,
    whatever the transform is. *)
Theorem nonpositive_size_is_empty_range :
  ∀ (E U A : Type) (in_array out_array size : Z)
    (body : A → E → store E U → A * store E U)
    (tbody : E → store E U → E * store E U) (init_acc : A) (s : store E U),
    size ≤ 0 →
    (0 <? size) = false
    ∧ fold in_array size body init_acc s = Some (init_acc, s)
    ∧ fold in_array size (recording body) init_acc (Store (cells s) (env s, []))
      = Some (init_acc, Store (cells s) (env s, []))
    ∧ map in_array size tbody out_array s = Some s.
Proof.
  intros E U A in_array out_array size body tbody init_acc s Hsize.
  split; [apply Z.ltb_ge; exact Hsize|].
  unfold fold, map. repeat split.
  - apply fold_loop_exit. exact Hsize.
  - apply fold_loop_exit. exact Hsize.
  - apply map_loop_exit. exact Hsize.
Qed.

Lemma nonpositive_size_is_empty_range_witness :
  -3 ≤ 0
  ∧ fold Usage.numbers (-3) Usage.plus 7 Usage.numbers_store
    = Some (7, Usage.numbers_store)
  ∧ map Usage.arr (-3) (on_env Usage.square) Usage.squared Usage.arr_store
    = Some Usage.arr_store.
Proof.
  assert (H : -3 ≤ 0) by lia.
  split; [exact H|].
  destruct (nonpositive_size_is_empty_range Z unit Z Usage.numbers Usage.squared
              (-3) Usage.plus (on_env Usage.square) 7 Usage.numbers_store H)
    as (_ & Hfold & _ & _).
  destruct (nonpositive_size_is_empty_range Z unit Z Usage.arr Usage.squared
              (-3) Usage.plus (on_env Usage.square) 7 Usage.arr_store H)
    as (_ & _ & _ & Hmap).
  split; [exact Hfold|exact Hmap].
Defined.

End ArrayFacts.

(** * Properties of the chain combinators *)

Module ChainFacts.
Import Chains.
Section Traversals.

Context {W : Type}.
Implicit Types (w : W) (l : list ptr) (x first : ptr) (fuel : nat).

Lemma eqb_NULL x : x ≠ NULL → (x =? NULL) = false.
Proof. intros Hx. apply Z.eqb_neq. exact Hx. Qed.

(** *** [fold_s] *)

Lemma fold_s_sentinel {A} fuel (next : A → ptr → W → ptr * W)
    (body : A → ptr → W → A * W) (acc : A) w :
  fold_s fuel NULL next body acc w = Some (acc, w).
Proof. destruct fuel; reflexivity. Qed.

Lemma fold_s_element {A} fuel first (next : A → ptr → W → ptr * W)
    (body : A → ptr → W → A * W) (acc : A) w :
  first ≠ NULL →
  fold_s (S fuel) first next body acc w =
    let '(acc', w1) := body acc first w in
    let '(value, w2) := next acc' first w1 in
    fold_s fuel value next body acc' w2.
Proof. intros Hx. simpl. rewrite eqb_NULL by exact Hx. reflexivity. Qed.

Lemma fold_s_visit {A} (Rem : list ptr → W → Prop)
    (next : A → ptr → W → ptr * W) (body : A → ptr → W → A * W) :
  (∀ acc, finite_chain Rem (fold_s_step next body acc)) →
  ∀ l fuel (acc : A) w,
    Rem l w → (length l ≤ fuel)%nat →
    fold_s fuel (head_of l) next body acc w = Some (visit next body l acc w).
Proof.
  intros Hchain l.
  induction l as [|x l IH]; intros fuel acc w Hrem Hfuel.
  - apply fold_s_sentinel.
  - destruct fuel as [|fuel]; [simpl in Hfuel; lia|].
    destruct (Hchain acc x l w Hrem) as (Hx & Hhead & Hrest).
    simpl head_of. rewrite fold_s_element by exact Hx.
    unfold fold_s_step in Hhead, Hrest. simpl visit.
    destruct (body acc x w) as [acc' w1].
    destruct (next acc' x w1) as [value w2]. simpl in Hhead, Hrest.
    subst value. apply IH; [exact Hrest|simpl in Hfuel; lia].
Qed.

Lemma fold_s_endless {A} (On : ptr → W → Prop)
    (next : A → ptr → W → ptr * W) (body : A → ptr → W → A * W) :
  (∀ acc, endless On (fold_s_step next body acc)) →
  ∀ fuel first (acc : A) w,
    On first w → fold_s fuel first next body acc w = None.
Proof.
  intros Hendless fuel.
  induction fuel as [|fuel IH]; intros first acc w Hon;
    destruct (Hendless acc first w Hon) as (Hx & Hstep).
  - simpl. rewrite eqb_NULL by exact Hx. reflexivity.
  - rewrite fold_s_element by exact Hx.
    unfold fold_s_step in Hstep.
    destruct (body acc first w) as [acc' w1].
    destruct (next acc' first w1) as [value w2]. simpl in Hstep.
    apply IH. exact Hstep.
Qed.

(** *** [foreach_s] *)

Lemma foreach_s_sentinel fuel (body : ptr → W → ptr * W) w :
  foreach_s fuel NULL body w = Some w.
Proof. destruct fuel; reflexivity. Qed.

Lemma foreach_s_element fuel first (body : ptr → W → ptr * W) w :
  first ≠ NULL →
  foreach_s (S fuel) first body w =
    let '(value, w') := body first w in foreach_s fuel value body w'.
Proof. intros Hx. simpl. rewrite eqb_NULL by exact Hx. reflexivity. Qed.

Lemma foreach_s_fold_s fuel (body : ptr → W → ptr * W) :
  ∀ first w,
    foreach_s fuel first body w =
      snd <$> fold_s fuel first (λ _ x, body x) (λ acc _ w0, (acc, w0)) tt w.
Proof.
  induction fuel as [|fuel IH]; intros first w; simpl;
    destruct (first =? NULL); try reflexivity.
  destruct (body first w) as [value w']. apply IH.
Qed.

Lemma foreach_s_walk (Rem : list ptr → W → Prop) (body : ptr → W → ptr * W) :
  finite_chain Rem body →
  ∀ l fuel w,
    Rem l w → (length l ≤ fuel)%nat →
    foreach_s fuel (head_of l) body w = Some (walk body l w).
Proof.
  intros Hchain l.
  induction l as [|x l IH]; intros fuel w Hrem Hfuel.
  - apply foreach_s_sentinel.
  - destruct fuel as [|fuel]; [simpl in Hfuel; lia|].
    destruct (Hchain x l w Hrem) as (Hx & Hhead & Hrest).
    simpl head_of. rewrite foreach_s_element by exact Hx. simpl walk.
    destruct (body x w) as [value w']. simpl in Hhead, Hrest |- *.
    subst value. apply IH; [exact Hrest|simpl in Hfuel; lia].
Qed.

Lemma foreach_s_endless (On : ptr → W → Prop) (body : ptr → W → ptr * W) :
  endless On body →
  ∀ fuel first w, On first w → foreach_s fuel first body w = None.
Proof.
  intros Hendless fuel.
  induction fuel as [|fuel IH]; intros first w Hon;
    destruct (Hendless first w Hon) as (Hx & Hstep).
  - simpl. rewrite eqb_NULL by exact Hx. reflexivity.
  - rewrite foreach_s_element by exact Hx.
    destruct (body first w) as [value w']. simpl in Hstep.
    apply IH. exact Hstep.
Qed.

Lemma finite_chain_nonnull (Rem : list ptr → W → Prop) (step : ptr → W → ptr * W) :
  finite_chain Rem step →
  ∀ l w, Rem l w → Forall (λ x, x ≠ NULL) l.
Proof.
  intros Hchain l. induction l as [|x l IH]; intros w Hrem; constructor.
  - apply (Hchain x l w Hrem).
  - apply (IH (step x w).2). apply (Hchain x l w Hrem).
Qed.

End Traversals.

Section Recorded.

Context {W : Type}.
Implicit Types (w : W) (l : list ptr) (x first : ptr) (fuel : nat).

Lemma fold_s_seen {A} (Rem : list ptr → W → Prop)
    (next : A → ptr → W → ptr * W) (body : A → ptr → W → A * W) :
  (∀ acc, finite_chain Rem (fold_s_step next body acc)) →
  ∀ l fuel (acc : A) w (log : list ptr),
    Rem l w → (length l ≤ fuel)%nat →
    fold_s fuel (head_of l)
      (λ acc x, aside (next acc x)) (λ acc x, noting (λ _, x) (body acc x))
      acc (w, log)
    = Some (let '(r, w') := visit next body l acc w in (r, (w', log ++ l))).
Proof.
  intros Hchain l.
  induction l as [|x l IH]; intros fuel acc w log Hrem Hfuel.
  - change (head_of []) with NULL. rewrite fold_s_sentinel. simpl.
    rewrite app_nil_r. reflexivity.
  - destruct fuel as [|fuel]; [simpl in Hfuel; lia|].
    destruct (Hchain acc x l w Hrem) as (Hx & Hhead & Hrest).
    simpl head_of. rewrite fold_s_element by exact Hx.
    unfold fold_s_step in Hhead, Hrest. unfold noting, aside. simpl.
    destruct (body acc x w) as [acc' w1]. simpl.
    destruct (next acc' x w1) as [value w2]. simpl in Hhead, Hrest |- *.
    subst value. rewrite IH by (exact Hrest || (simpl in Hfuel; lia)).
    rewrite <- app_assoc. reflexivity.
Qed.

Lemma foreach_s_links (Rem : list ptr → W → Prop) (body : ptr → W → ptr * W) :
  finite_chain Rem body →
  ∀ l fuel w (log : list (ptr * ptr)),
    Rem l w → (length l ≤ fuel)%nat →
    foreach_s fuel (head_of l) (λ x, noting (λ r, (x, r)) (body x)) (w, log)
    = Some (walk body l w, log ++ links l).
Proof.
  intros Hchain l.
  induction l as [|x l IH]; intros fuel w log Hrem Hfuel.
  - change (head_of []) with NULL. rewrite foreach_s_sentinel. simpl.
    rewrite app_nil_r. reflexivity.
  - destruct fuel as [|fuel]; [simpl in Hfuel; lia|].
    destruct (Hchain x l w Hrem) as (Hx & Hhead & Hrest).
    simpl head_of. rewrite foreach_s_element by exact Hx.
    unfold noting. simpl.
    destruct (body x w) as [value w']. simpl in Hhead, Hrest |- *.
    subst value. rewrite IH by (exact Hrest || (simpl in Hfuel; lia)).
    rewrite <- app_assoc. reflexivity.
Qed.

End Recorded.

(** *** [map_s] *)

Section MapChain.

Context {W : Type}.
Implicit Types (w : W) (l : list ptr) (x first : ptr) (fuel : nat).

Lemma map_s_sentinel fuel (findnext : ptr → W → ptr * W)
    (body : ptr → ptr → W → ptr * W) w :
  map_s fuel NULL findnext body w = Some (NULL, w).
Proof. destruct fuel; reflexivity. Qed.

Lemma map_s_element fuel first (findnext : ptr → W → ptr * W)
    (body : ptr → ptr → W → ptr * W) w :
  first ≠ NULL →
  map_s (S fuel) first findnext body w =
    let '(next, w1) := findnext first w in
    '(next', w2) ← map_s fuel next findnext body w1;
    Some (body first next' w2).
Proof.
  intros Hx. unfold map_s. simpl. rewrite eqb_NULL by exact Hx. reflexivity.
Qed.

Lemma map_s_build (Rem : list ptr → W → Prop) (findnext : ptr → W → ptr * W)
    (body : ptr → ptr → W → ptr * W) :
  finite_chain Rem findnext →
  ∀ l fuel w,
    Rem l w → (length l ≤ fuel)%nat →
    map_s fuel (head_of l) findnext body w
    = Some (build body l (descend findnext l w)).
Proof.
  intros Hchain l.
  induction l as [|x l IH]; intros fuel w Hrem Hfuel.
  - apply map_s_sentinel.
  - destruct fuel as [|fuel]; [simpl in Hfuel; lia|].
    destruct (Hchain x l w Hrem) as (Hx & Hhead & Hrest).
    simpl head_of. rewrite map_s_element by exact Hx.
    unfold descend. simpl walk. simpl build.
    destruct (findnext x w) as [next w1]. simpl in Hhead, Hrest |- *.
    subst next. rewrite IH by (exact Hrest || (simpl in Hfuel; lia)).
    unfold descend. simpl.
    destruct (build body l (walk findnext l w1)) as [next' w2]. reflexivity.
Qed.

Lemma map_s_endless (On : ptr → W → Prop) (findnext : ptr → W → ptr * W)
    (body : ptr → ptr → W → ptr * W) :
  endless On findnext →
  ∀ fuel first w, On first w → map_s fuel first findnext body w = None.
Proof.
  intros Hendless fuel.
  induction fuel as [|fuel IH]; intros first w Hon;
    destruct (Hendless first w Hon) as (Hx & Hstep).
  - unfold map_s. simpl. rewrite eqb_NULL by exact Hx. reflexivity.
  - rewrite map_s_element by exact Hx.
    destruct (findnext first w) as [next w1]. simpl in Hstep.
    rewrite IH by exact Hstep. reflexivity.
Qed.

(** Whatever relation between stores every call of the two lambdas
    maintains, a run of [map_s] maintains. *)
Lemma map_s_frame (R : W → W → Prop) (findnext : ptr → W → ptr * W)
    (body : ptr → ptr → W → ptr * W) :
  (∀ w, R w w) → (∀ w1 w2 w3, R w1 w2 → R w2 w3 → R w1 w3) →
  (∀ x w, R w (findnext x w).2) →
  (∀ x n w, R w (body x n w).2) →
  ∀ fuel first w r w',
    map_s fuel first findnext body w = Some (r, w') → R w w'.
Proof.
  intros Hrefl Htrans Hfind Hbody fuel.
  induction fuel as [|fuel IH]; intros first w r w' Hrun.
  - unfold map_s in Hrun. simpl in Hrun.
    destruct (first =? NULL); [|discriminate].
    injection Hrun as _ <-. apply Hrefl.
  - destruct (decide (first = NULL)) as [->|Hx].
    + rewrite map_s_sentinel in Hrun. injection Hrun as _ <-. apply Hrefl.
    + rewrite map_s_element in Hrun by exact Hx.
      pose proof (Hfind first w) as H1.
      destruct (findnext first w) as [next w1]. simpl in H1.
      destruct (map_s fuel next findnext body w1) as [[next' w2]|] eqn:Hrec;
        [|discriminate].
      simpl in Hrun. pose proof (Hbody first next' w2) as H3.
      rewrite (surjective_pairing (body first next' w2)) in Hrun.
      injection Hrun as _ <-.
      eapply Htrans; [exact H1|]. eapply Htrans; [|exact H3].
      eapply IH. exact Hrec.
Qed.

End MapChain.

Section MapChainRecorded.

Context {W : Type}.
Implicit Types (w : W) (l : list ptr) (x first : ptr) (fuel : nat).

Lemma map_s_calls (Rem : list ptr → W → Prop) (findnext : ptr → W → ptr * W)
    (body : ptr → ptr → W → ptr * W) :
  finite_chain Rem findnext →
  ∀ l fuel w (log : list (ptr * ptr * ptr)),
    Rem l w → (length l ≤ fuel)%nat →
    map_s fuel (head_of l)
      (λ x, aside (findnext x)) (λ x n, noting (λ r, (x, n, r)) (body x n))
      (w, log)
    = Some (let '(r, w') := build body l (descend findnext l w) in
            (r, (w', log ++ calls body l (descend findnext l w)))).
Proof.
  intros Hchain l.
  induction l as [|x l IH]; intros fuel w log Hrem Hfuel.
  - change (head_of []) with NULL. rewrite map_s_sentinel. simpl.
    rewrite app_nil_r. reflexivity.
  - destruct fuel as [|fuel]; [simpl in Hfuel; lia|].
    destruct (Hchain x l w Hrem) as (Hx & Hhead & Hrest).
    simpl head_of. rewrite map_s_element by exact Hx.
    unfold descend. simpl walk. simpl build. simpl calls. unfold aside at 1.
    simpl.
    destruct (findnext x w) as [next w1]. simpl in Hhead, Hrest |- *.
    subst next. rewrite IH by (exact Hrest || (simpl in Hfuel; lia)).
    unfold descend. simpl.
    destruct (build body l (walk findnext l w1)) as [next' w2]. simpl.
    unfold noting. simpl.
    destruct (body x next' w2) as [r w3]. simpl.
    rewrite <- app_assoc. reflexivity.
Qed.

(** The first invocation of the transform is on the last element, with the
    Sentinel as successor argument. *)
Lemma calls_first (body : ptr → ptr → W → ptr * W) l x w :
  hd_error (calls body (l ++ [x]) w) = Some (x, NULL, (body x NULL w).1).
Proof.
  induction l as [|y l IH]; [reflexivity|].
  simpl. destruct (calls body (l ++ [x]) w) as [|c cs]; [discriminate|].
  simpl in *. exact IH.
Qed.

(** The last invocation returns the new head. *)
Lemma calls_last (body : ptr → ptr → W → ptr * W) l x w :
  last (calls body (x :: l) w)
  = Some (x, (build body l w).1, (build body (x :: l) w).1).
Proof.
  simpl. rewrite last_snoc.
  destruct (build body l w) as [next w']. reflexivity.
Qed.

End MapChainRecorded.

End ChainFacts.

(** * The example programs *)

Module HeapFacts.
Section HeapFacts.

Context {N : Type}.

(** A chain only depends on the structs at its own addresses. *)
Lemma chain_agree (link : N → ptr) (l : list ptr) (h h' : Heap.heap N) :
  (∀ x, x ∈ l → Heap.nodes h' !! x = Heap.nodes h !! x) →
  Heap.chain link l h → Heap.chain link l h'.
Proof.
  induction l as [|y l IH]; intros Hsame Hchain; [exact I|].
  destruct Hchain as (Hy & (n & Hn & Hnext) & Hrest).
  split; [exact Hy|]. split.
  - exists n. rewrite Hsame by apply list_elem_of_here. split; assumption.
  - apply IH; [|exact Hrest].
    intros x Hx. apply Hsame. apply list_elem_of_further. exact Hx.
Qed.

End HeapFacts.
End HeapFacts.

Module MapStructFacts.
Import Chains MapStruct.

Implicit Types (h : Heap.heap Node) (l : list ptr) (x p : ptr).

Lemma chain_finite_chain : finite_chain (Heap.chain next) findnext.
Proof.
  intros x l h (Hx & (n & Hn & Hnext) & Hrest).
  split; [exact Hx|]. split; [|exact Hrest].
  unfold findnext, next_of, Heap.field. simpl. rewrite Hn. exact Hnext.
Qed.

Lemma descend_findnext l h : descend findnext l h = h.
Proof. induction l as [|x l IH]; simpl; [reflexivity|exact IH]. Qed.

Lemma chain_below l h :
  Heap.wf h → Heap.chain next l h → ∀ x, x ∈ l → 0 < x < Heap.brk h.
Proof.
  intros [_ Hwf]. induction l as [|y l IH]; intros Hchain x Hin.
  - apply elem_of_nil in Hin. contradiction.
  - destruct Hchain as (_ & (n & Hn & _) & Hrest).
    apply elem_of_cons in Hin as [->|Hin]; [eapply Hwf; exact Hn|].
    apply IH; assumption.
Qed.

Lemma data_at_agree l h h' :
  (∀ x, x ∈ l → Heap.nodes h' !! x = Heap.nodes h !! x) →
  data_at l h' = data_at l h.
Proof.
  intros Hsame. unfold data_at. apply list_fmap_ext.
  intros i x Hx. unfold data_of, Heap.field.
  rewrite (Hsame x) by (eapply list_elem_of_lookup_2; exact Hx). reflexivity.
Qed.

Lemma data_at_cons x l h : data_at (x :: l) h = data_of x h :: data_at l h.
Proof. reflexivity. Qed.

Lemma fresh_bounds b l x :
  x ∈ fresh b l → b ≤ x < b + Z.of_nat (length l).
Proof.
  induction l as [|y l IH]; simpl; intros Hin.
  - apply elem_of_nil in Hin. contradiction.
  - apply elem_of_cons in Hin as [->|Hin]; [lia|].
    specialize (IH Hin). lia.
Qed.

Lemma body_allocates value nxt h :
  value ≠ Heap.brk h →
  body value nxt h =
    (Heap.brk h,
     Heap.Mk (<[Heap.brk h := mkNode (square (data_of value h)) nxt]> (Heap.nodes h))
             (Heap.brk h + 1)).
Proof.
  intros Hv. unfold body, set_data, set_next, Heap.assign, Heap.malloc. simpl.
  rewrite !alter_insert_eq. simpl. f_equal. f_equal. f_equal.
  unfold square, data_of, Heap.field. simpl.
  rewrite lookup_insert_ne by congruence. reflexivity.
Qed.

(** What the way back of [map_s] builds with the squaring transform on the
    elements [l], all allocated below the mark. *)
Lemma build_body l :
  ∀ h, 0 < Heap.brk h → (∀ x, x ∈ l → x < Heap.brk h) →
    ∃ h', build body l h = (head_of (fresh (Heap.brk h) l), h')
          ∧ Heap.brk h' = Heap.brk h + Z.of_nat (length l)
          ∧ (∀ a, ¬ (Heap.brk h ≤ a < Heap.brk h') →
                  Heap.nodes h' !! a = Heap.nodes h !! a)
          ∧ Heap.chain next (fresh (Heap.brk h) l) h'
          ∧ data_at (fresh (Heap.brk h) l) h' = square <$> data_at l h.
Proof.
  induction l as [|x l IH]; intros h Hbrk Hbelow.
  - exists h. simpl. repeat split; (reflexivity || lia || idtac).
  - destruct (IH h Hbrk) as (h1 & Hbuild & Hbrk1 & Hsame & Hchain & Hdata).
    { intros y Hy. apply Hbelow. apply list_elem_of_further. exact Hy. }
    assert (Hx : x < Heap.brk h) by (apply Hbelow, list_elem_of_here).
    simpl build. rewrite Hbuild.
    rewrite body_allocates by lia.
    eexists. split; [simpl; rewrite Hbrk1; reflexivity|].
    cbn [Heap.brk Heap.nodes length fresh Heap.chain hd].
    split; [lia|].
    assert (Hold : ∀ y, y ∈ fresh (Heap.brk h) l →
              <[Heap.brk h1 := mkNode (square (data_of x h1)) (head_of (fresh (Heap.brk h) l))]>
                (Heap.nodes h1) !! y = Heap.nodes h1 !! y).
    { intros y Hy. apply fresh_bounds in Hy. apply lookup_insert_ne. lia. }
    split; [|split; [split; [|split]|]].
    + intros a Ha. rewrite lookup_insert_ne by lia. apply Hsame. lia.
    + unfold NULL. lia.
    + eexists. rewrite <- Hbrk1. rewrite lookup_insert_eq.
      split; reflexivity.
    + eapply HeapFacts.chain_agree; [|exact Hchain]. rewrite <- Hbrk1. exact Hold.
    + rewrite !data_at_cons, fmap_cons, <- Hdata, <- Hbrk1. f_equal.
      * unfold data_of at 1, Heap.field. simpl.
        rewrite lookup_insert_eq. simpl.
        f_equal. unfold data_of, Heap.field. rewrite Hsame by lia. reflexivity.
      * apply data_at_agree. exact Hold.
Qed.

Lemma fresh_length b l : length (fresh b l) = length l.
Proof. induction l as [|x l IH]; simpl; [reflexivity|]. rewrite IH. reflexivity. Qed.

Lemma chain_allocated l h :
  Heap.chain next l h → ∀ x, x ∈ l → is_Some (Heap.nodes h !! x).
Proof.
  induction l as [|y l IH]; intros Hchain x Hin.
  - apply elem_of_nil in Hin. contradiction.
  - destruct Hchain as (_ & (n & Hn & _) & Hrest).
    apply elem_of_cons in Hin as [->|Hin]; [exists n; exact Hn|].
    apply IH; assumption.
Qed.

Lemma print_chain l :
  ∀ fuel h, Heap.chain next l h → (length l ≤ fuel)%nat →
    print fuel (head_of l) h = Some (data_at l h).
Proof.
  induction l as [|x l IH]; intros fuel h Hchain Hfuel.
  - destruct fuel; reflexivity.
  - destruct fuel as [|fuel]; [simpl in Hfuel; lia|].
    destruct Hchain as (Hx & (n & Hn & Hnext) & Hrest).
    simpl. rewrite ChainFacts.eqb_NULL by exact Hx.
    assert (Hnx : next_of x h = head_of l)
      by (unfold next_of, Heap.field; rewrite Hn; exact Hnext).
    rewrite Hnx, IH by (exact Hrest || (simpl in Hfuel; lia)).
    reflexivity.
Qed.

(** [map_s] with the lambdas of [map_struct_example.c] on any chain of a
    well-formed heap. *)
Lemma map_s_squares l h fuel :
  Heap.wf h → Heap.chain next l h → (length l ≤ fuel)%nat →
  ∃ h', map_s fuel (head_of l) findnext body h
          = Some (head_of (fresh (Heap.brk h) l), h')
        ∧ (∀ a n, Heap.nodes h !! a = Some n → Heap.nodes h' !! a = Some n)
        ∧ (∀ a, a ∈ fresh (Heap.brk h) l → Heap.nodes h !! a = None)
        ∧ Heap.chain next (fresh (Heap.brk h) l) h'
        ∧ data_at (fresh (Heap.brk h) l) h' = square <$> data_at l h.
Proof.
  intros Hwf Hchain Hfuel.
  rewrite (ChainFacts.map_s_build (Heap.chain next) findnext body
             chain_finite_chain l fuel h Hchain Hfuel).
  rewrite descend_findnext.
  destruct (build_body l h) as (h' & Hbuild & Hbrk & Hsame & Hnew & Hdata).
  { apply Hwf. }
  { intros x Hx. apply (chain_below l h Hwf Hchain x Hx). }
  exists h'. split; [rewrite Hbuild; reflexivity|].
  split; [|split; [|split; assumption]].
  - intros a n Ha. rewrite Hsame; [exact Ha|].
    destruct Hwf as [_ Hwf]. specialize (Hwf a n Ha). lia.
  - intros a Ha. apply fresh_bounds in Ha.
    destruct (Heap.nodes h !! a) as [n|] eqn:Hn; [|reflexivity].
    destruct Hwf as [_ Hwf]. specialize (Hwf a n Hn). lia.
Qed.

Lemma sample_heap_eq :
  sample_heap =
    Heap.Mk (<[1 := mkNode 1 2]> (<[2 := mkNode 2 3]> (<[3 := mkNode 3 NULL]> ∅))) 4.
Proof. vm_compute. reflexivity. Qed.

Lemma sample_wf : Heap.wf sample_heap.
Proof.
  rewrite sample_heap_eq. split; [reflexivity|]. simpl. intros a n Ha.
  destruct (decide (a = 1)) as [->|]; [split; reflexivity|].
  destruct (decide (a = 2)) as [->|]; [split; reflexivity|].
  destruct (decide (a = 3)) as [->|]; [split; reflexivity|].
  rewrite !lookup_insert_ne, lookup_empty in Ha by congruence. discriminate.
Qed.

Lemma sample_chain : Heap.chain next [1; 2; 3] sample_heap.
Proof.
  repeat split; try discriminate; eexists; split; reflexivity.
Qed.

Lemma extends_refl h : extends h h.
Proof. split; [lia|reflexivity]. Qed.

Lemma extends_trans h1 h2 h3 : extends h1 h2 → extends h2 h3 → extends h1 h3.
Proof.
  intros [Hb12 H12] [Hb23 H23]. split; [lia|].
  intros a Ha. rewrite H23 by lia. apply H12. exact Ha.
Qed.

Lemma findnext_extends x h : extends h (findnext x h).2.
Proof. apply extends_refl. Qed.

Lemma body_extends x n h : extends h (body x n h).2.
Proof.
  unfold body, set_data, set_next, Heap.assign, Heap.malloc. simpl.
  split; simpl; [lia|]. intros a Ha.
  rewrite !lookup_alter_ne, lookup_insert_ne by lia. reflexivity.
Qed.

Lemma counting_finite_chain acc :
  finite_chain chain_counted (fold_s_step next_counting sum_counting acc).
Proof.
  intros x l [h c] Hrem.
  destruct (chain_finite_chain x l h Hrem) as (Hx & Hhead & Hrest).
  split; [exact Hx|]. split; [exact Hhead|exact Hrest].
Qed.

Lemma cycle_endless : endless on_cycle findnext.
Proof.
  intros x h [-> [-> | ->]]; (split; [discriminate|]);
    (split; [reflexivity|]); [right|left]; reflexivity.
Qed.

Lemma cycle_endless_counted acc :
  endless on_cycle_counted (fold_s_step next_counting sum_counting acc).
Proof.
  intros x [h c] Hon. destruct (cycle_endless x h Hon) as (Hx & Hstep).
  split; [exact Hx|exact Hstep].
Qed.

End MapStructFacts.

Module FoldStructFacts.
Import Chains FoldStruct.

Lemma release_finite_chain : finite_chain chain release.
Proof.
  intros x l s (Hnodup & Hx & (n & Hn & Hnext) & Hrest).
  apply NoDup_cons in Hnodup as [Hnotin Hnodup].
  split; [exact Hx|]. split.
  - unfold release, next_of, Heap.field. simpl. rewrite Hn. exact Hnext.
  - split; [exact Hnodup|]. unfold release. simpl.
    eapply HeapFacts.chain_agree; [|exact Hrest].
    intros y Hy. simpl. apply lookup_delete_ne. intros ->. contradiction.
Qed.

Lemma sample_list_eq :
  sample_list =
    (3, Arrays.Store (Arrays.cells sample_world)
          (Heap.Mk (<[3 := mk_linked "out.txt" 2]>
                      (<[2 := mk_linked "-o" 1]>
                         (<[1 := mk_linked "prog" NULL]> ∅))) 4)).
Proof. vm_compute. reflexivity. Qed.

Lemma sample_list_chain : chain [3; 2; 1] sample_list.2.
Proof.
  rewrite sample_list_eq. split.
  - apply (bool_decide_unpack _). vm_compute. exact I.
  - repeat split; try discriminate; eexists; split; reflexivity.
Qed.

(** [main] on the command line [prog -o out.txt] prints 13 and frees
    every struct it allocated. *)
Example main_sample :
  main 3 3 8 sample_world
  = Some (13, Arrays.Store (Arrays.cells sample_world) (Heap.Mk ∅ 4)).
Proof. vm_compute. reflexivity. Qed.

End FoldStructFacts.

(** * The chain combinators against their contract *)

Module ChainTheorems.
Import Chains.

(** C3. [fold_s] checks the current element first: on the Sentinel it stops
    and returns the accumulator, with no fuel needed; on any other element
    it applies the reducer to the accumulator and the element, then the
    successor lambda, and goes on from the element that one returned.
    Hence on every finite chain [l] it returns what visiting the elements
    of [l] once each, head to Sentinel, returns, and a reducer that records
    its argument has recorded exactly [l].  Summing the chain 1, 2, 3
    from 0 returns 6 after 3 calls of the reducer. *)
Theorem fold_s_visits_each_element_once :
  (∀ (W A : Type) (next : A → ptr → W → ptr * W) (body : A → ptr → W → A * W)
     (init_acc : A) (w : W),
      (∀ fuel, fold_s fuel NULL next body init_acc w = Some (init_acc, w))
      ∧ (∀ fuel first, first ≠ NULL →
           fold_s (S fuel) first next body init_acc w =
             let '(acc, w1) := body init_acc first w in
             let '(value, w2) := next acc first w1 in
             fold_s fuel value next body acc w2)
      ∧ (∀ (Rem : list ptr → W → Prop) (l : list ptr) (fuel : nat),
           (∀ acc, finite_chain Rem (fold_s_step next body acc)) →
           Rem l w → (length l ≤ fuel)%nat →
           fold_s fuel (head_of l) next body init_acc w
             = Some (visit next body l init_acc w)
           ∧ fold_s fuel (head_of l)
               (λ acc x, aside (next acc x))
               (λ acc x, noting (λ _, x) (body acc x)) init_acc (w, [])
             = Some (let '(r, w') := visit next body l init_acc w in
                     (r, (w', l)))))
  ∧ MapStruct.print 3 MapStruct.sample_head MapStruct.sample_heap
      = Some [1; 2; 3]
  ∧ fold_s 3 MapStruct.sample_head MapStruct.next_counting
      MapStruct.sum_counting 0 (MapStruct.sample_heap, 0%nat)
    = Some (6, (MapStruct.sample_heap, 3%nat)).
Proof.
  split; [|split; reflexivity].
  intros W A next body init_acc w. split; [|split].
  - intros fuel. apply ChainFacts.fold_s_sentinel.
  - intros fuel first Hx. apply ChainFacts.fold_s_element. exact Hx.
  - intros Rem l fuel Hchain Hrem Hfuel. split.
    + apply (ChainFacts.fold_s_visit Rem); assumption.
    + apply (ChainFacts.fold_s_seen Rem next body Hchain l fuel init_acc w []);
        assumption.
Qed.

Lemma fold_s_visits_each_element_once_witness :
  MapStruct.chain_counted [1; 2; 3] (MapStruct.sample_heap, 0%nat)
  ∧ fold_s 5 (head_of [1; 2; 3]) MapStruct.next_counting MapStruct.sum_counting 0
      (MapStruct.sample_heap, 0%nat)
    = Some (visit MapStruct.next_counting MapStruct.sum_counting [1; 2; 3] 0
              (MapStruct.sample_heap, 0%nat))
  ∧ fold_s 5 (head_of [1; 2; 3])
      (λ acc x, aside (MapStruct.next_counting acc x))
      (λ acc x, noting (λ _, x) (MapStruct.sum_counting acc x)) 0
      ((MapStruct.sample_heap, 0%nat), [])
    = Some (6, ((MapStruct.sample_heap, 3%nat), [1; 2; 3]))
  ∧ (1 : ptr) ≠ NULL
  ∧ fold_s 3 1 MapStruct.next_counting MapStruct.sum_counting 0
      (MapStruct.sample_heap, 0%nat)
    = fold_s 2 2 MapStruct.next_counting MapStruct.sum_counting 1
        (MapStruct.sample_heap, 1%nat).
Proof.
  assert (H : MapStruct.chain_counted [1; 2; 3] (MapStruct.sample_heap, 0%nat))
    by exact MapStructFacts.sample_chain.
  assert (H1 : (1 : ptr) ≠ NULL) by discriminate.
  split; [exact H|].
  destruct fold_s_visits_each_element_once as [Hgen _].
  destruct (Hgen _ _ MapStruct.next_counting MapStruct.sum_counting 0
              (MapStruct.sample_heap, 0%nat)) as (_ & Helem & Hrun).
  destruct (Hrun MapStruct.chain_counted [1; 2; 3] 5%nat
              MapStructFacts.counting_finite_chain H) as (Hvisit & Hseen).
  - simpl. lia.
  - split; [exact Hvisit|]. split; [exact Hseen|].
    split; [exact H1|exact (Helem 2%nat 1 H1)].
Defined.

(** C4. [foreach_s] is the loop of [fold_s] with nothing accumulated: run
    with the same fuel, it leaves the store that [fold_s] leaves when the
    combined callable is the successor and the reducer does nothing.  On
    the Sentinel it stops; on any other element it calls the callable and
    goes on from the element returned.  Hence on every finite chain [l]
    the callable is invoked once per element, head first: invocation [k]
    is on element [k] and returns element [k+1], the last one returns the
    Sentinel, and no element is the Sentinel. *)
Theorem foreach_s_one_call_per_element :
  ∀ (W : Type) (body : ptr → W → ptr * W) (w : W),
    (∀ fuel first,
       foreach_s fuel first body w =
         snd <$> fold_s fuel first (λ _ x, body x) (λ acc _ w0, (acc, w0)) tt w)
    ∧ (∀ fuel, foreach_s fuel NULL body w = Some w)
    ∧ (∀ fuel first, first ≠ NULL →
         foreach_s (S fuel) first body w =
           let '(value, w') := body first w in foreach_s fuel value body w')
    ∧ (∀ (Rem : list ptr → W → Prop) (l : list ptr) (fuel : nat),
         finite_chain Rem body → Rem l w → (length l ≤ fuel)%nat →
         foreach_s fuel (head_of l) body w = Some (walk body l w)
         ∧ foreach_s fuel (head_of l) (λ x, noting (λ r, (x, r)) (body x)) (w, [])
           = Some (walk body l w, links l)
         ∧ Forall (λ x, x ≠ NULL) l).
Proof.
  intros W body w. split; [|split; [|split]].
  - intros fuel first. apply ChainFacts.foreach_s_fold_s.
  - intros fuel. apply ChainFacts.foreach_s_sentinel.
  - intros fuel first Hx. apply ChainFacts.foreach_s_element. exact Hx.
  - intros Rem l fuel Hchain Hrem Hfuel. split; [|split].
    + apply (ChainFacts.foreach_s_walk Rem); assumption.
    + apply (ChainFacts.foreach_s_links Rem body Hchain l fuel w []); assumption.
    + apply (ChainFacts.finite_chain_nonnull Rem body Hchain l w Hrem).
Qed.

Lemma foreach_s_one_call_per_element_witness :
  finite_chain FoldStruct.chain FoldStruct.release
  ∧ FoldStruct.chain [3; 2; 1] FoldStruct.sample_list.2
  ∧ foreach_s 3 (head_of [3; 2; 1])
      (λ x, noting (λ r, (x, r)) (FoldStruct.release x))
      (FoldStruct.sample_list.2, [])
    = Some (walk FoldStruct.release [3; 2; 1] FoldStruct.sample_list.2,
            [(3, 2); (2, 1); (1, NULL)])
  ∧ (3 : ptr) ≠ NULL
  ∧ foreach_s 3 3 FoldStruct.release FoldStruct.sample_list.2
    = foreach_s 2 2 FoldStruct.release
        (FoldStruct.release 3 FoldStruct.sample_list.2).2.
Proof.
  assert (H3 : (3 : ptr) ≠ NULL) by discriminate.
  split; [exact FoldStructFacts.release_finite_chain|].
  split; [exact FoldStructFacts.sample_list_chain|].
  destruct (foreach_s_one_call_per_element _ FoldStruct.release
              FoldStruct.sample_list.2) as (_ & _ & Helem & Hrun).
  destruct (Hrun FoldStruct.chain [3; 2; 1] 3%nat
              FoldStructFacts.release_finite_chain
              FoldStructFacts.sample_list_chain) as (_ & Hlog & _).
  - simpl. lia.
  - split; [exact Hlog|]. split; [exact H3|exact (Helem 2%nat 3 H3)].
Defined.

(** C1. [map_s] builds the new chain from the tail to the head.  On the
    Sentinel it returns the Sentinel.  On every finite chain [l] it first
    calls the successor lambda on each element, head to Sentinel, then the
    transform on each element, last to first, and returns what the
    transform returned for the head: the first invocation of the transform
    is on the last element with [NULL] as successor argument, every other
    invocation is on the element before, with the value the previous
    invocation returned as successor argument, and the last invocation
    returns the result of [map_s].  With the lambdas of
    [map_struct_example.c], on any chain of a well-formed heap the new
    chain holds the squares of the data of the chain, in the same order;
    [main] prints 1, 2, 3 for the original list and 1, 4, 9 for the mapped
    one. *)
Theorem map_s_builds_tail_to_head :
  (∀ (W : Type) (findnext : ptr → W → ptr * W) (body : ptr → ptr → W → ptr * W),
      (∀ fuel w, map_s fuel NULL findnext body w = Some (NULL, w))
      ∧ (∀ (Rem : list ptr → W → Prop) (l : list ptr) (fuel : nat) (w : W),
           finite_chain Rem findnext → Rem l w → (length l ≤ fuel)%nat →
           map_s fuel (head_of l) findnext body w
             = Some (build body l (descend findnext l w))
           ∧ map_s fuel (head_of l)
               (λ x, aside (findnext x))
               (λ x n, noting (λ r, (x, n, r)) (body x n)) (w, [])
             = Some (let '(r, w') := build body l (descend findnext l w) in
                     (r, (w', calls body l (descend findnext l w)))))
      ∧ (∀ l x w,
           hd_error (calls body (l ++ [x]) w) = Some (x, NULL, (body x NULL w).1))
      ∧ (∀ l x w,
           calls body (x :: l) w =
             calls body l w ++ [(x, (build body l w).1, (build body (x :: l) w).1)]))
  ∧ (∀ (l : list ptr) (h : Heap.heap MapStruct.Node) (fuel : nat),
       Heap.wf h → Heap.chain MapStruct.next l h → (length l ≤ fuel)%nat →
       ∃ new_head h',
         map_s fuel (head_of l) MapStruct.findnext MapStruct.body h
           = Some (new_head, h')
         ∧ MapStruct.print fuel new_head h'
           = Some (MapStruct.square <$> MapStruct.data_at l h))
  ∧ MapStruct.main 3 = Some ([1; 2; 3], [1; 4; 9], Heap.Mk ∅ 7).
Proof.
  split; [|split; [|reflexivity]].
  - intros W findnext body. split; [|split; [|split]].
    + intros fuel w. apply ChainFacts.map_s_sentinel.
    + intros Rem l fuel w Hchain Hrem Hfuel. split.
      * apply (ChainFacts.map_s_build Rem); assumption.
      * apply (ChainFacts.map_s_calls Rem findnext body Hchain l fuel w []);
          assumption.
    + intros l x w. apply ChainFacts.calls_first.
    + intros l x w. simpl.
      destruct (build body l w) as [next w']. reflexivity.
  - intros l h fuel Hwf Hchain Hfuel.
    destruct (MapStructFacts.map_s_squares l h fuel Hwf Hchain Hfuel)
      as (h' & Hrun & _ & _ & Hnew & Hdata).
    exists (head_of (MapStruct.fresh (Heap.brk h) l)), h'.
    split; [exact Hrun|]. rewrite <- Hdata.
    apply MapStructFacts.print_chain; [exact Hnew|].
    rewrite MapStructFacts.fresh_length. exact Hfuel.
Qed.

Lemma map_s_builds_tail_to_head_witness :
  Heap.wf MapStruct.sample_heap
  ∧ Heap.chain MapStruct.next [1; 2; 3] MapStruct.sample_heap
  ∧ (∃ new_head h',
       map_s 3 (head_of [1; 2; 3]) MapStruct.findnext MapStruct.body
         MapStruct.sample_heap = Some (new_head, h')
       ∧ MapStruct.print 3 new_head h' = Some [1; 4; 9])
  ∧ snd <$> (snd <$>
       map_s 3 (head_of [1; 2; 3])
         (λ x, aside (MapStruct.findnext x))
         (λ x n, noting (λ r, (x, n, r)) (MapStruct.body x n))
         (MapStruct.sample_heap, []))
    = Some [(3, NULL, 4); (2, 4, 5); (1, 5, 6)].
Proof.
  split; [exact MapStructFacts.sample_wf|].
  split; [exact MapStructFacts.sample_chain|].
  destruct map_s_builds_tail_to_head as (Hgen & Hsq & _). split.
  - apply (Hsq [1; 2; 3] MapStruct.sample_heap 3%nat
             MapStructFacts.sample_wf MapStructFacts.sample_chain).
    simpl. lia.
  - destruct (Hgen _ MapStruct.findnext MapStruct.body) as (_ & Hrun & _).
    destruct (Hrun (Heap.chain MapStruct.next) [1; 2; 3] 3%nat
                MapStruct.sample_heap MapStructFacts.chain_finite_chain
                MapStructFacts.sample_chain) as (_ & Hlog).
    + simpl. lia.
    + rewrite Hlog. reflexivity.
Defined.

(** C6. [map_s] is not destructive.  The combinator reaches the store only
    through its two lambdas: whatever reflexive and transitive relation
    between the store before and the store after every call of the
    successor lambda and of the transform maintains, a run of [map_s]
    maintains, and on a finite chain the run does return.  With the
    lambdas of [map_struct_example.c], on any chain of a well-formed heap:
    every struct of the heap, so every node of the chain with its data and
    its link, is the same after the run; the chain is still there with the
    same data; and the new chain is made of addresses that held nothing
    before. *)
Theorem map_s_leaves_input_unchanged :
  (∀ (W : Type) (R : W → W → Prop)
     (findnext : ptr → W → ptr * W) (body : ptr → ptr → W → ptr * W),
      (∀ w, R w w) → (∀ w1 w2 w3, R w1 w2 → R w2 w3 → R w1 w3) →
      (∀ x w, R w (findnext x w).2) →
      (∀ x n w, R w (body x n w).2) →
      (∀ fuel first w r w',
         map_s fuel first findnext body w = Some (r, w') → R w w')
      ∧ (∀ (Rem : list ptr → W → Prop) (l : list ptr) (fuel : nat) (w : W),
           finite_chain Rem findnext → Rem l w → (length l ≤ fuel)%nat →
           ∃ r w', map_s fuel (head_of l) findnext body w = Some (r, w')
                   ∧ R w w'))
  ∧ (∀ (W X : Type) (input : W → X)
       (findnext : ptr → W → ptr * W) (body : ptr → ptr → W → ptr * W),
       (∀ x w, input (findnext x w).2 = input w) →
       (∀ x n w, input (body x n w).2 = input w) →
       ∀ fuel first w r w',
         map_s fuel first findnext body w = Some (r, w') → input w' = input w)
  ∧ (∀ (l : list ptr) (h : Heap.heap MapStruct.Node) (fuel : nat),
       Heap.wf h → Heap.chain MapStruct.next l h → (length l ≤ fuel)%nat →
       ∃ new_head h',
         map_s fuel (head_of l) MapStruct.findnext MapStruct.body h
           = Some (new_head, h')
         ∧ (∀ a n, Heap.nodes h !! a = Some n → Heap.nodes h' !! a = Some n)
         ∧ Heap.chain MapStruct.next l h'
         ∧ MapStruct.data_at l h' = MapStruct.data_at l h
         ∧ new_head = head_of (MapStruct.fresh (Heap.brk h) l)
         ∧ Heap.chain MapStruct.next (MapStruct.fresh (Heap.brk h) l) h'
         ∧ (∀ a, a ∈ MapStruct.fresh (Heap.brk h) l → Heap.nodes h !! a = None)).
Proof.
  split; [|split].
  - intros W R findnext body Hrefl Htrans Hfind Hbody. split.
    + apply ChainFacts.map_s_frame; assumption.
    + intros Rem l fuel w Hchain Hrem Hfuel.
      pose proof (ChainFacts.map_s_build Rem findnext body Hchain l fuel w
                    Hrem Hfuel) as Hrun.
      destruct (build body l (descend findnext l w)) as [r w'].
      exists r, w'. split; [exact Hrun|].
      apply (ChainFacts.map_s_frame R findnext body Hrefl Htrans Hfind Hbody
               fuel (head_of l) w r w' Hrun).
  - intros W X input findnext body Hfind Hbody fuel first w r w' Hrun.
    apply (ChainFacts.map_s_frame (λ w1 w2, input w2 = input w1) findnext body)
      with (fuel := fuel) (first := first) (r := r);
      [reflexivity|intros w1 w2 w3 H12 H23; congruence|exact Hfind|exact Hbody|
       exact Hrun].
  - intros l h fuel Hwf Hchain Hfuel.
    destruct (MapStructFacts.map_s_squares l h fuel Hwf Hchain Hfuel)
      as (h' & Hrun & Hkeep & Hfresh & Hnew & _).
    exists (head_of (MapStruct.fresh (Heap.brk h) l)), h'.
    assert (Hsame : ∀ x, x ∈ l → Heap.nodes h' !! x = Heap.nodes h !! x).
    { intros x Hx.
      destruct (MapStructFacts.chain_allocated l h Hchain x Hx) as [n Hn].
      rewrite Hn. apply Hkeep. exact Hn. }
    split; [exact Hrun|]. split; [exact Hkeep|]. split.
    { eapply HeapFacts.chain_agree; [exact Hsame|exact Hchain]. }
    split; [apply MapStructFacts.data_at_agree; exact Hsame|].
    split; [reflexivity|]. split; [exact Hnew|exact Hfresh].
Qed.

Lemma map_s_leaves_input_unchanged_witness :
  Heap.wf MapStruct.sample_heap
  ∧ Heap.chain MapStruct.next [1; 2; 3] MapStruct.sample_heap
  ∧ (∃ new_head h',
       map_s 3 (head_of [1; 2; 3]) MapStruct.findnext MapStruct.body
         MapStruct.sample_heap = Some (new_head, h')
       ∧ MapStruct.data_at [1; 2; 3] h' = [1; 2; 3]
       ∧ new_head = 6)
  ∧ (∃ r h',
       map_s 3 (head_of [1; 2; 3]) MapStruct.findnext MapStruct.body
         MapStruct.sample_heap = Some (r, h')
       ∧ MapStruct.extends MapStruct.sample_heap h').
Proof.
  split; [exact MapStructFacts.sample_wf|].
  split; [exact MapStructFacts.sample_chain|].
  destruct map_s_leaves_input_unchanged as (Hgen & _ & Hex). split.
  - destruct (Hex [1; 2; 3] MapStruct.sample_heap 3%nat
                MapStructFacts.sample_wf MapStructFacts.sample_chain)
      as (new_head & h' & Hrun & _ & _ & Hdata & Hhead & _).
    + simpl. lia.
    + exists new_head, h'.
      split; [exact Hrun|]. split; [exact Hdata|exact Hhead].
  - destruct (Hgen _ MapStruct.extends MapStruct.findnext MapStruct.body
                MapStructFacts.extends_refl MapStructFacts.extends_trans
                MapStructFacts.findnext_extends MapStructFacts.body_extends)
      as (_ & Htotal).
    apply (Htotal (Heap.chain MapStruct.next) [1; 2; 3] 3%nat
             MapStruct.sample_heap MapStructFacts.chain_finite_chain
             MapStructFacts.sample_chain).
    simpl. lia.
Defined.

End ChainTheorems.

(** * More on the array combinators *)

Module ArrayExtras.
Import Arrays.

Section Loops.

Context {E U : Type}.
Implicit Types (s : store E U) (l : list E) (a i n size : Z).

Lemma fold_loop_stuck {A} a size (body : A → E → store E U → A * store E U)
    i (acc : A) s :
  i < size → fold_loop 0 a size body i acc s = None.
Proof. intros Hi. simpl. destruct (Z.ltb_spec i size); [reflexivity|lia]. Qed.

Lemma map_loop_stuck a size (body : E → store E U → E * store E U) out i s :
  i < size → map_loop 0 a size body out i s = None.
Proof. intros Hi. simpl. destruct (Z.ltb_spec i size); [reflexivity|lia]. Qed.

Opaque fold_loop map_loop.

(** Every store relation that is reflexive and transitive and that each
    call of the reducer maintains, the loop of [fold] maintains. *)
Lemma fold_loop_frame {A} (R : store E U → store E U → Prop) a size
    (body : A → E → store E U → A * store E U) :
  (∀ s, R s s) → (∀ s1 s2 s3, R s1 s2 → R s2 s3 → R s1 s3) →
  (∀ acc v s, R s (body acc v s).2) →
  ∀ fuel i (acc : A) s r s',
    fold_loop fuel a size body i acc s = Some (r, s') → R s s'.
Proof.
  intros Hrefl Htrans Hbody fuel.
  induction fuel as [|fuel IH]; intros i acc s r s' Hrun;
    destruct (Z_lt_le_dec i size) as [Hi|Hi].
  - rewrite fold_loop_stuck in Hrun by exact Hi. discriminate.
  - rewrite ArrayFacts.fold_loop_exit in Hrun by exact Hi.
    injection Hrun as _ <-. apply Hrefl.
  - rewrite ArrayFacts.fold_loop_step in Hrun by exact Hi.
    destruct (load (a + i) s) as [v|]; [|discriminate]. simpl in Hrun.
    pose proof (Hbody acc v s) as Hstep.
    destruct (body acc v s) as [acc1 s1]. simpl in Hstep.
    destruct (Int.incr i) as [i'|]; [|discriminate]. simpl in Hrun.
    eapply Htrans; [exact Hstep|]. eapply IH. exact Hrun.
  - rewrite ArrayFacts.fold_loop_exit in Hrun by exact Hi.
    injection Hrun as _ <-. apply Hrefl.
Qed.

(** The loop of [map] from index [i] on writes no cell outside
    [out + i .. out + size - 1] and keeps the set of allocated cells, when
    the transform writes no cell. *)
Lemma map_loop_writes a size (body : E → store E U → E * store E U) out :
  (∀ v s, cells (body v s).2 = cells s) →
  ∀ fuel i s s',
    map_loop fuel a size body out i s = Some s' →
    (∀ b, ¬ (out + i ≤ b < out + size) → cells s' !! b = cells s !! b)
    ∧ (∀ b, is_Some (cells s' !! b) ↔ is_Some (cells s !! b)).
Proof.
  intros Hbody fuel.
  induction fuel as [|fuel IH]; intros i s s' Hrun;
    destruct (Z_lt_le_dec i size) as [Hi|Hi].
  - rewrite map_loop_stuck in Hrun by exact Hi. discriminate.
  - rewrite ArrayFacts.map_loop_exit in Hrun by exact Hi.
    injection Hrun as <-. split; reflexivity.
  - rewrite ArrayFacts.map_loop_step in Hrun by exact Hi.
    destruct (load (a + i) s) as [v|]; [|discriminate]. simpl in Hrun.
    pose proof (Hbody v s) as Hcells.
    destruct (body v s) as [r s1]. simpl in Hcells.
    unfold write in Hrun.
    destruct (cells s1 !! (out + i)) as [old|] eqn:Hold; [|discriminate].
    simpl in Hrun.
    destruct (Int.incr i) as [i'|] eqn:Hincr; [|discriminate]. simpl in Hrun.
    assert (i' = i + 1) as ->.
    { unfold Int.incr in Hincr. destruct (i <? Int.INT_MAX); congruence. }
    destruct (IH _ _ _ Hrun) as [Hout Hdom]. simpl in Hout, Hdom. split.
    + intros b Hb. rewrite Hout by lia.
      rewrite lookup_insert_ne by lia. rewrite Hcells. reflexivity.
    + intros b. rewrite Hdom. rewrite <- Hcells.
      destruct (decide (b = out + i)) as [->|Hne].
      * rewrite lookup_insert_eq, Hold. split; eauto.
      * rewrite lookup_insert_ne by congruence. reflexivity.
  - rewrite ArrayFacts.map_loop_exit in Hrun by exact Hi.
    injection Hrun as <-. split; reflexivity.
Qed.

(** Running [fold] past the end of the allocation: the cells hold [l] from
    [a] on, the cell after them is not allocated, and the size asks for
    more. *)
Lemma fold_loop_overrun {A} a size l (body : A → E → store E U → A * store E U) :
  Z.of_nat (length l) ≤ Int.INT_MAX →
  Z.of_nat (length l) < size →
  (∀ acc v s, cells (body acc v s).2 = cells s) →
  ∀ l2 l1 fuel (acc : A) s,
    l = l1 ++ l2 → array_at a l s →
    cells s !! (a + Z.of_nat (length l)) = None →
    fold_loop fuel a size body (Z.of_nat (length l1)) acc s = None.
Proof.
  intros Hmax Hsize Hbody l2.
  induction l2 as [|v l2 IH]; intros l1 fuel acc s Hl Harr Hend.
  - rewrite app_nil_r in Hl. subst l1.
    destruct fuel as [|fuel]; [apply fold_loop_stuck; exact Hsize|].
    rewrite ArrayFacts.fold_loop_step by exact Hsize.
    unfold load. rewrite Hend. reflexivity.
  - assert (Hlen : length l = (length l1 + S (length l2))%nat)
      by (rewrite Hl, length_app; reflexivity).
    destruct fuel as [|fuel]; [apply fold_loop_stuck; lia|].
    rewrite ArrayFacts.fold_loop_step by lia.
    assert (Hv : load (a + Z.of_nat (length l1)) s = Some v).
    { apply Harr. rewrite Hl. apply list_lookup_middle. reflexivity. }
    rewrite Hv. simpl.
    pose proof (Hbody acc v s) as Hcells.
    destruct (body acc v s) as [acc1 s1]. simpl in Hcells.
    rewrite ArrayFacts.incr_below by lia. simpl.
    replace (Z.of_nat (length l1) + 1) with (Z.of_nat (length (l1 ++ [v])))
      by (rewrite length_app; simpl; lia).
    apply IH.
    + rewrite Hl, <- app_assoc. reflexivity.
    + eapply ArrayFacts.array_at_cells; [|exact Harr]. symmetry. exact Hcells.
    + rewrite Hcells. exact Hend.
Qed.

Transparent fold_loop map_loop.

Lemma reduce_pure {A} (r : A → E → A) l :
  ∀ (acc : A) s, reduce (Pure.reducer r) l acc s = (foldl r acc l, s).
Proof. induction l as [|v l IH]; intros acc s; simpl; [reflexivity|apply IH]. Qed.

Lemma transform_pure (f : E → E) l (u : U) :
  transform (λ value u0, (f value, u0)) l u = (f <$> l, u).
Proof.
  induction l as [|v l IH]; simpl; [reflexivity|]. rewrite IH. reflexivity.
Qed.

Lemma array_at_take a l s (k : nat) :
  array_at a l s → array_at a (take k l) s.
Proof.
  intros Harr j v Hj. apply Harr.
  apply lookup_take_Some in Hj as [Hj _]. exact Hj.
Qed.

(** [map] with a transform free of side effects, between arrays placed so
    that no source element is overwritten before it is read. *)
Lemma map_pure a out l (f : E → E) s :
  Z.of_nat (length l) ≤ Int.INT_MAX →
  array_at a l s →
  allocated out (Z.of_nat (length l)) s →
  out ≤ a ∨ a + Z.of_nat (length l) ≤ out →
  ∃ s', map a (Z.of_nat (length l)) (Pure.transformer f) out s = Some s'
        ∧ array_at out (f <$> l) s'
        ∧ env s' = env s
        ∧ (∀ b, ¬ (out ≤ b < out + Z.of_nat (length l)) →
                cells s' !! b = cells s !! b).
Proof.
  intros Hmax Harr Halloc Hsep. unfold map, Pure.transformer.
  rewrite Nat2Z.id.
  destruct (ArrayFacts.map_loop_transform a out (Z.of_nat (length l))
              (λ value u0, (f value, u0)) Hmax Hsep l 0 (length l) s)
    as (s' & Hrun & Henv & Hout & Hrest).
  - lia.
  - lia.
  - lia.
  - intros k v Hk. rewrite Z.add_0_r. apply Harr, Hk.
  - intros k Hk. apply Halloc. lia.
  - rewrite transform_pure in Henv, Hout. simpl in Henv, Hout.
    exists s'. split; [exact Hrun|]. split; [|split; [exact Henv|]].
    + intros k v Hk. specialize (Hout k v Hk).
      rewrite Z.add_0_r in Hout. exact Hout.
    + intros b Hb. apply Hrest. lia.
Qed.

Lemma fold_pure {A} a l (r : A → E → A) (init : A) s :
  Z.of_nat (length l) ≤ Int.INT_MAX →
  array_at a l s →
  fold a (Z.of_nat (length l)) (Pure.reducer r) init s = Some (foldl r init l, s).
Proof.
  intros Hmax Harr. unfold fold. rewrite Nat2Z.id.
  rewrite (ArrayFacts.fold_loop_reduce a l (Pure.reducer r) Hmax) with (l2 := l) (l1 := []).
  - rewrite reduce_pure. reflexivity.
  - intros acc v s0 H0. exact H0.
  - reflexivity.
  - lia.
  - exact Harr.
Qed.

End Loops.

(** X1. [map] writes nowhere but to the destination.  Whenever the
    transform writes no memory cell and [map] returns, every cell outside
    [out_array[0 .. size-1]] holds what it held before, also when source
    and destination overlap, and the set of allocated cells is the same:
    [map] neither allocates nor frees. *)
Theorem map_writes_only_destination :
  ∀ (E U : Type) (in_array out_array size : Z)
    (body : E → store E U → E * store E U) (s s' : store E U),
    (∀ v s0, cells (body v s0).2 = cells s0) →
    map in_array size body out_array s = Some s' →
    (∀ b, ¬ (out_array ≤ b < out_array + size) → cells s' !! b = cells s !! b)
    ∧ (∀ b, is_Some (cells s' !! b) ↔ is_Some (cells s !! b)).
Proof.
  intros E U in_array out_array size body s s' Hbody Hrun.
  destruct (map_loop_writes in_array size body out_array Hbody _ _ _ _ Hrun)
    as [Hout Hdom].
  split; [|exact Hdom]. intros b Hb. apply Hout. lia.
Qed.

Lemma map_writes_only_destination_witness :
  ∃ s', map Usage.arr 4 (on_env Usage.square) (Usage.arr + 1) Usage.arr_store
          = Some s'
        ∧ cells s' !! Usage.arr = Some 1
        ∧ cells s' !! Usage.squared = Some 0.
Proof.
  eexists. split; [vm_compute; reflexivity|].
  match goal with |- cells ?s' !! _ = _ ∧ _ =>
    destruct (map_writes_only_destination Z unit Usage.arr (Usage.arr + 1) 4
                (on_env Usage.square) Usage.arr_store s') as [Hout _]
  end.
  - intros v s0. reflexivity.
  - vm_compute. reflexivity.
  - split; (rewrite Hout; [reflexivity|vm_compute; intros [H1 H2]; congruence]).
Defined.

(** X2. [fold] reaches the store only through the reducer.  Every
    reflexive and transitive relation between stores that each call of the
    reducer maintains holds between the store before and the store after
    a run of [fold]; in particular, when the reducer writes no memory cell,
    the memory after the run is the memory before it. *)
Theorem fold_writes_nothing_itself :
  ∀ (E U A : Type) (in_array size : Z)
    (body : A → E → store E U → A * store E U) (init_acc : A)
    (s : store E U) (r : A) (s' : store E U),
    fold in_array size body init_acc s = Some (r, s') →
    (∀ R : store E U → store E U → Prop,
       (∀ s0, R s0 s0) → (∀ s1 s2 s3, R s1 s2 → R s2 s3 → R s1 s3) →
       (∀ acc v s0, R s0 (body acc v s0).2) → R s s')
    ∧ ((∀ acc v s0, cells (body acc v s0).2 = cells s0) → cells s' = cells s).
Proof.
  intros E U A in_array size body init_acc s r s' Hrun. split.
  - intros R Hrefl Htrans Hbody.
    apply (fold_loop_frame R in_array size body Hrefl Htrans Hbody _ _ _ _ _ _ Hrun).
  - intros Hbody.
    apply (fold_loop_frame (λ s1 s2, cells s2 = cells s1) in_array size body)
      with (fuel := Z.to_nat size) (i := 0) (acc := init_acc) (r := r);
      [reflexivity|intros s1 s2 s3 H12 H23; congruence|exact Hbody|exact Hrun].
Qed.

Lemma fold_writes_nothing_itself_witness :
  fold Usage.numbers 5 Usage.plus 0 Usage.numbers_store
    = Some (15, Usage.numbers_store)
  ∧ cells Usage.numbers_store = cells Usage.numbers_store.
Proof.
  assert (H : fold Usage.numbers 5 Usage.plus 0 Usage.numbers_store
              = Some (15, Usage.numbers_store)) by reflexivity.
  split; [exact H|].
  destruct (fold_writes_nothing_itself Z unit Z Usage.numbers 5 Usage.plus 0
              Usage.numbers_store 15 Usage.numbers_store H) as [_ Hcells].
  apply Hcells. intros acc v s0. reflexivity.
Defined.

(** X3. [map] after [map] is [map] of the composition.  With transforms
    free of side effects, mapping [f] from [a] to [b] and then [g] from
    [b] to [c] leaves in [c] the elements [g (f x)] in the order of the
    source, and so does the single run of [map] with [g ∘ f] from [a] to
    [c]; each destination may be its source or lie anywhere that does not
    start inside its source past the first cell. *)
Theorem map_map_fusion :
  ∀ (E U : Type) (a b c : Z) (l : list E) (f g : E → E) (s : store E U),
    Z.of_nat (length l) ≤ Int.INT_MAX →
    array_at a l s →
    allocated b (Z.of_nat (length l)) s →
    allocated c (Z.of_nat (length l)) s →
    b ≤ a ∨ a + Z.of_nat (length l) ≤ b →
    c ≤ b ∨ b + Z.of_nat (length l) ≤ c →
    c ≤ a ∨ a + Z.of_nat (length l) ≤ c →
    ∃ s1 s2 s3,
      map a (Z.of_nat (length l)) (Pure.transformer f) b s = Some s1
      ∧ map b (Z.of_nat (length l)) (Pure.transformer g) c s1 = Some s2
      ∧ map a (Z.of_nat (length l)) (Pure.transformer (g ∘ f)) c s = Some s3
      ∧ array_at c (g ∘ f <$> l) s2
      ∧ array_at c (g ∘ f <$> l) s3.
Proof.
  intros E U a b c l f g s Hmax Harr Hb Hc Hab Hbc Hac.
  destruct (map_pure a b l f s Hmax Harr Hb Hab) as (s1 & Hrun1 & Hout1 & _ & Hrest1).
  assert (Hlen : length (f <$> l) = length l) by apply length_fmap.
  assert (Hc1 : allocated c (Z.of_nat (length (f <$> l))) s1).
  { rewrite Hlen. intros k Hk.
    destruct (decide (b ≤ c + k < b + Z.of_nat (length l))) as [Hin|Hout].
    - destruct (lookup_lt_is_Some_2 (f <$> l) (Z.to_nat (c + k - b))) as [v Hv];
        [rewrite Hlen; lia|].
      exists v. specialize (Hout1 _ _ Hv).
      replace (b + Z.of_nat (Z.to_nat (c + k - b))) with (c + k) in Hout1 by lia.
      exact Hout1.
    - rewrite Hrest1 by exact Hout. apply Hc. exact Hk. }
  destruct (map_pure b c (f <$> l) g s1) as (s2 & Hrun2 & Hout2 & _);
    [rewrite Hlen; exact Hmax|exact Hout1|exact Hc1|rewrite Hlen; exact Hbc|].
  destruct (map_pure a c l (g ∘ f) s Hmax Harr Hc Hac) as (s3 & Hrun3 & Hout3 & _).
  rewrite Hlen in Hrun2. rewrite <- list_fmap_compose in Hout2.
  exists s1, s2, s3. repeat split; assumption.
Qed.

Lemma map_map_fusion_witness :
  ∃ s1 s2,
    map Usage.arr 5 (Pure.transformer (λ v, Int.mul v v)) Usage.squared
      Usage.arr_store = Some s1
    ∧ map Usage.squared 5 (Pure.transformer (λ v, Int.add v 1)) Usage.squared s1
      = Some s2
    ∧ array_at Usage.squared [2; 5; 10; 17; 26] s2.
Proof.
  assert (H1 : Z.of_nat (length [1; 2; 3; 4; 5]) ≤ Int.INT_MAX)
    by (vm_compute; discriminate).
  assert (H2 : array_at Usage.arr [1; 2; 3; 4; 5] Usage.arr_store)
    by apply ArrayFacts.place_array_at.
  assert (H3 : allocated Usage.squared (Z.of_nat (length [1; 2; 3; 4; 5]))
                 Usage.arr_store).
  { intros k Hk. simpl in Hk.
    assert (k = 0 ∨ k = 1 ∨ k = 2 ∨ k = 3 ∨ k = 4) as Hcases by lia.
    destruct Hcases as [->|[->|[->|[->| ->]]]]; vm_compute; eauto. }
  destruct (map_map_fusion Z unit Usage.arr Usage.squared Usage.squared
              [1; 2; 3; 4; 5] (λ v, Int.mul v v) (λ v, Int.add v 1)
              Usage.arr_store H1 H2 H3 H3)
    as (s1 & s2 & _ & Hrun1 & Hrun2 & _ & Hout & _).
  - right. vm_compute. discriminate.
  - left. reflexivity.
  - right. vm_compute. discriminate.
  - exists s1, s2. split; [exact Hrun1|]. split; [exact Hrun2|exact Hout].
Defined.

(** X4. [fold] after [map] is [fold] with the transform moved into the
    reducer.  With a transform and a reducer free of side effects,
    mapping [f] from [a] to [b] and folding [r] over [b] returns what
    folding [λ acc v, r acc (f v)] over [a] returns. *)
Theorem fold_map_fusion :
  ∀ (E U A : Type) (a b : Z) (l : list E) (f : E → E) (r : A → E → A)
    (init_acc : A) (s : store E U),
    Z.of_nat (length l) ≤ Int.INT_MAX →
    array_at a l s →
    allocated b (Z.of_nat (length l)) s →
    b ≤ a ∨ a + Z.of_nat (length l) ≤ b →
    ∃ s1 result,
      map a (Z.of_nat (length l)) (Pure.transformer f) b s = Some s1
      ∧ fold b (Z.of_nat (length l)) (Pure.reducer r) init_acc s1
        = Some (result, s1)
      ∧ fold a (Z.of_nat (length l)) (Pure.reducer (λ acc v, r acc (f v)))
          init_acc s
        = Some (result, s).
Proof.
  intros E U A a b l f r init_acc s Hmax Harr Hb Hab.
  destruct (map_pure a b l f s Hmax Harr Hb Hab) as (s1 & Hrun1 & Hout1 & _).
  assert (Hlen : length (f <$> l) = length l) by apply length_fmap.
  exists s1, (foldl (λ acc v, r acc (f v)) init_acc l).
  split; [exact Hrun1|]. split.
  - rewrite <- Hlen. rewrite fold_pure by (rewrite ?Hlen; assumption).
    rewrite foldl_fmap. reflexivity.
  - apply fold_pure; assumption.
Qed.

Lemma fold_map_fusion_witness :
  ∃ s1,
    map Usage.arr 5 (Pure.transformer (λ v, Int.mul v v)) Usage.squared
      Usage.arr_store = Some s1
    ∧ fold Usage.squared 5 (Pure.reducer Int.add) 0 s1 = Some (55, s1)
    ∧ fold Usage.arr 5 (Pure.reducer (λ acc v, Int.add acc (Int.mul v v))) 0
        Usage.arr_store = Some (55, Usage.arr_store).
Proof.
  assert (H1 : Z.of_nat (length [1; 2; 3; 4; 5]) ≤ Int.INT_MAX)
    by (vm_compute; discriminate).
  assert (H2 : array_at Usage.arr [1; 2; 3; 4; 5] Usage.arr_store)
    by apply ArrayFacts.place_array_at.
  assert (H3 : allocated Usage.squared (Z.of_nat (length [1; 2; 3; 4; 5]))
                 Usage.arr_store).
  { intros k Hk. simpl in Hk.
    assert (k = 0 ∨ k = 1 ∨ k = 2 ∨ k = 3 ∨ k = 4) as Hcases by lia.
    destruct Hcases as [->|[->|[->|[->| ->]]]]; vm_compute; eauto. }
  destruct (fold_map_fusion Z unit Z Usage.arr Usage.squared [1; 2; 3; 4; 5]
              (λ v, Int.mul v v) Int.add 0 Usage.arr_store H1 H2 H3)
    as (s1 & result & Hrun & Hfold1 & Hfold2).
  - right. vm_compute. discriminate.
  - assert (result = 55) as ->.
    { assert (Hc : fold Usage.arr 5
                     (Pure.reducer (λ acc v, Int.add acc (Int.mul v v))) 0
                     Usage.arr_store = Some (55, Usage.arr_store)) by reflexivity.
      change (Z.of_nat (length [1; 2; 3; 4; 5])) with 5 in Hfold2.
      congruence. }
    exists s1. split; [exact Hrun|]. split; [exact Hfold1|exact Hfold2].
Defined.

(** X5. [fold] trusts its size.  With a reducer that writes no memory
    cell, over cells holding the sequence [l]: a size [k] up to the length
    of [l] reduces exactly the first [k] elements, whatever comes after
    them; a size beyond an allocation that ends with [l] has no defined
    result, because the loop reads the cell after the last one. *)
Theorem fold_trusts_size :
  ∀ (E U A : Type) (in_array : Z) (l : list E)
    (body : A → E → store E U → A * store E U) (init_acc : A) (s : store E U),
    Z.of_nat (length l) ≤ Int.INT_MAX →
    array_at in_array l s →
    (∀ acc v s0, cells (body acc v s0).2 = cells s0) →
    (∀ k : nat, (k ≤ length l)%nat →
       fold in_array (Z.of_nat k) body init_acc s
       = Some (reduce body (take k l) init_acc s))
    ∧ (∀ size : Z,
         Z.of_nat (length l) < size →
         cells s !! (in_array + Z.of_nat (length l)) = None →
         fold in_array size body init_acc s = None).
Proof.
  intros E U A in_array l body init_acc s Hmax Harr Hbody. split.
  - intros k Hk. unfold fold. rewrite Nat2Z.id.
    assert (Hlen : length (take k l) = k) by (apply length_take_le; exact Hk).
    rewrite <- Hlen at 2.
    apply (ArrayFacts.fold_loop_reduce in_array (take k l) body) with (l1 := []).
    + rewrite Hlen. lia.
    + intros acc v s0 H0.
      eapply ArrayFacts.array_at_cells; [|exact H0]. symmetry. apply Hbody.
    + reflexivity.
    + rewrite Hlen. lia.
    + apply array_at_take. exact Harr.
  - intros size Hsize Hend. unfold fold.
    apply (fold_loop_overrun in_array size l body Hmax Hsize Hbody l []
             (Z.to_nat size) init_acc s eq_refl Harr Hend).
Qed.

Lemma fold_trusts_size_witness :
  fold Usage.numbers 3 Usage.plus 0 Usage.numbers_store
    = Some (6, Usage.numbers_store)
  ∧ fold Usage.numbers 6 Usage.plus 0 Usage.numbers_store = None.
Proof.
  assert (H1 : Z.of_nat (length [1; 2; 3; 4; 5]) ≤ Int.INT_MAX)
    by (vm_compute; discriminate).
  assert (H2 : array_at Usage.numbers [1; 2; 3; 4; 5] Usage.numbers_store)
    by apply ArrayFacts.place_array_at.
  destruct (fold_trusts_size Z unit Z Usage.numbers [1; 2; 3; 4; 5] Usage.plus 0
              Usage.numbers_store H1 H2) as [Hprefix Hover].
  - intros acc v s0. reflexivity.
  - split.
    + apply (Hprefix 3%nat). simpl. lia.
    + apply (Hover 6); [simpl; lia|reflexivity].
Defined.

End ArrayExtras.

(** * Chains in the heap *)

Module HeapExtras.
Section HeapExtras.

Context {N : Type}.
Variable link : N → ptr.
Implicit Types (h : Heap.heap N) (l : list ptr).

Lemma chain_suffix l1 l2 h :
  Heap.chain link (l1 ++ l2) h → Heap.chain link l2 h.
Proof.
  induction l1 as [|x l1 IH]; intros Hchain; [exact Hchain|].
  apply IH. apply Hchain.
Qed.

(** From one head there is one chain. *)
Lemma chain_unique l1 : ∀ l2 h,
  Heap.chain link l1 h → Heap.chain link l2 h → hd NULL l1 = hd NULL l2 →
  l1 = l2.
Proof.
  induction l1 as [|x l1 IH]; intros l2 h H1 H2 Hhd.
  - destruct l2 as [|y l2]; [reflexivity|].
    destruct H2 as (Hy & _). simpl in Hhd. congruence.
  - destruct H1 as (Hx & (n & Hn & Hnext) & Hrest).
    destruct l2 as [|y l2]; [simpl in Hhd; congruence|].
    simpl in Hhd. subst y.
    destruct H2 as (_ & (n' & Hn' & Hnext') & Hrest').
    f_equal. apply (IH l2 h Hrest Hrest'). congruence.
Qed.

(** A chain that ends at [NULL] has no cycle: its elements are pairwise
    distinct. *)
Lemma chain_NoDup l h : Heap.chain link l h → NoDup l.
Proof.
  induction l as [|x l IH]; intros Hchain; [constructor|].
  apply NoDup_cons. split; [|apply IH, Hchain].
  intros Hin. apply list_elem_of_split in Hin as (l1 & l2 & Hl).
  assert (Hsuffix : Heap.chain link (x :: l2) h).
  { apply (chain_suffix l1). rewrite <- Hl. apply Hchain. }
  pose proof (chain_unique (x :: l2) (x :: l) h Hsuffix Hchain eq_refl) as Heq.
  apply (f_equal length) in Heq. rewrite Hl in Heq.
  simpl in Heq. rewrite length_app in Heq. simpl in Heq. lia.
Qed.

Lemma chain_free x l h :
  x ∉ l → Heap.chain link l h → Heap.chain link l (Heap.free x h).
Proof.
  intros Hx. apply HeapFacts.chain_agree.
  intros y Hy. simpl. apply lookup_delete_ne. intros ->. contradiction.
Qed.

End HeapExtras.
End HeapExtras.

(** * More on [map_struct_example.c] *)

Module MapStructExtras.
Import Chains MapStruct MapStructRun.

Implicit Types (h : Heap.heap Node) (l : list ptr) (x p : ptr).

Lemma next_of_chain x l h :
  Heap.chain next (x :: l) h → next_of x h = head_of l.
Proof.
  intros (_ & (n & Hn & Hnext) & _).
  unfold next_of, Heap.field. rewrite Hn. exact Hnext.
Qed.

(** The cleanup loop on a chain. *)
Lemma cleanup_chain l :
  ∀ fuel h, Heap.chain next l h → (length l ≤ fuel)%nat →
    ∃ h', cleanup fuel (head_of l) h = Some h'
          ∧ Heap.brk h' = Heap.brk h
          ∧ ∀ a, Heap.nodes h' !! a
                 = if decide (a ∈ l) then None else Heap.nodes h !! a.
Proof.
  induction l as [|x l IH]; intros fuel h Hchain Hfuel.
  - exists h. split; [destruct fuel; reflexivity|]. split; [reflexivity|].
    intros a. rewrite decide_False by apply not_elem_of_nil. reflexivity.
  - destruct fuel as [|fuel]; [simpl in Hfuel; lia|].
    pose proof (HeapExtras.chain_NoDup next _ _ Hchain) as Hnodup.
    apply NoDup_cons in Hnodup as [Hnotin _].
    pose proof (next_of_chain x l h Hchain) as Hnext.
    destruct Hchain as (Hx & _ & Hrest).
    destruct (IH fuel (Heap.free x h)) as (h' & Hrun & Hbrk & Hnodes).
    { apply HeapExtras.chain_free; assumption. }
    { simpl in Hfuel. lia. }
    exists h'. split; [|split; [exact Hbrk|]].
    + simpl. rewrite ChainFacts.eqb_NULL by exact Hx. rewrite Hnext. exact Hrun.
    + intros a. rewrite Hnodes. simpl.
      destruct (decide (a = x)) as [->|Hne].
      * rewrite decide_False by exact Hnotin.
        rewrite decide_True by apply list_elem_of_here.
        apply lookup_delete_eq.
      * rewrite lookup_delete_ne by congruence.
        destruct (decide (a ∈ l)) as [Hin|Hout].
        -- rewrite decide_True by (apply list_elem_of_further; exact Hin).
           reflexivity.
        -- rewrite decide_False; [reflexivity|].
           intros Hin. apply elem_of_cons in Hin as [?|?]; contradiction.
Qed.

Lemma fresh_covers b l a :
  b ≤ a < b + Z.of_nat (length l) → a ∈ fresh b l.
Proof.
  induction l as [|x l IH]; simpl; intros Ha; [lia|].
  destruct (decide (a = b + Z.of_nat (length l))) as [->|Hne].
  - apply list_elem_of_here.
  - apply list_elem_of_further, IH. lia.
Qed.

(** X7. The cleanup loop of [main] frees exactly the nodes of the list it
    is given: on any chain it ends, every address of the chain is free
    afterwards, every other address holds what it held, and the allocation
    mark has not moved. *)
Theorem cleanup_frees_exactly_the_chain :
  ∀ (l : list ptr) (h : Heap.heap Node) (fuel : nat),
    Heap.chain next l h → (length l ≤ fuel)%nat →
    ∃ h', cleanup fuel (head_of l) h = Some h'
          ∧ Heap.brk h' = Heap.brk h
          ∧ ∀ a, Heap.nodes h' !! a
                 = if decide (a ∈ l) then None else Heap.nodes h !! a.
Proof. intros l h fuel. apply cleanup_chain. Qed.

Lemma cleanup_frees_exactly_the_chain_witness :
  Heap.chain next [1; 2; 3] sample_heap
  ∧ ∃ h', cleanup 3 (head_of [1; 2; 3]) sample_heap = Some h'
          ∧ Heap.nodes h' !! 2 = None.
Proof.
  split; [exact MapStructFacts.sample_chain|].
  destruct (cleanup_frees_exactly_the_chain [1; 2; 3] sample_heap 3%nat
              MapStructFacts.sample_chain) as (h' & Hrun & _ & Hnodes).
  - simpl. lia.
  - exists h'. split; [exact Hrun|]. rewrite Hnodes. reflexivity.
Defined.

(** X8. [main], run from any list in place of the sample one: on a chain
    of a well-formed heap it prints the data of the list, then their
    squares in the same order, and returns with every node of the list
    and every node [map_s] allocated freed: no address of the list is
    allocated, and every other address holds what it held before, so
    nothing leaks.  [main] itself is this run from the sample list. *)
Theorem main_prints_squares_and_frees_everything :
  (∀ (l : list ptr) (h : Heap.heap Node) (fuel : nat),
     Heap.wf h → Heap.chain next l h → (length l ≤ fuel)%nat →
     ∃ h', main_from fuel (head_of l) h
             = Some (data_at l h, square <$> data_at l h, h')
           ∧ Heap.brk h' = Heap.brk h + Z.of_nat (length l)
           ∧ ∀ a, Heap.nodes h' !! a
                  = if decide (a ∈ l) then None else Heap.nodes h !! a)
  ∧ (∀ fuel, main fuel = main_from fuel sample_head sample_heap).
Proof.
  split; [|reflexivity].
  intros l h fuel Hwf Hchain Hfuel. unfold main_from.
  rewrite (MapStructFacts.print_chain l fuel h Hchain Hfuel). simpl.
  rewrite (ChainFacts.map_s_build (Heap.chain next) findnext body
             MapStructFacts.chain_finite_chain l fuel h Hchain Hfuel).
  rewrite MapStructFacts.descend_findnext.
  pose proof (MapStructFacts.chain_below l h Hwf Hchain) as Hbelow.
  destruct (MapStructFacts.build_body l h) as (h1 & Hbuild & Hbrk1 & Hsame & Hnew & Hdata).
  { apply Hwf. }
  { intros x Hx. apply (Hbelow x Hx). }
  rewrite Hbuild. simpl.
  rewrite (MapStructFacts.print_chain _ fuel h1 Hnew)
    by (rewrite MapStructFacts.fresh_length; exact Hfuel).
  simpl. rewrite Hdata.
  assert (Hchain1 : Heap.chain next l h1).
  { eapply HeapFacts.chain_agree; [|exact Hchain].
    intros x Hx. apply Hsame. specialize (Hbelow x Hx). lia. }
  destruct (cleanup_chain l fuel h1 Hchain1 Hfuel) as (h2 & Hrun2 & Hbrk2 & Hnodes2).
  rewrite Hrun2. simpl.
  assert (Hchain2 : Heap.chain next (fresh (Heap.brk h) l) h2).
  { eapply HeapFacts.chain_agree; [|exact Hnew].
    intros x Hx. rewrite Hnodes2. rewrite decide_False; [reflexivity|].
    intros Hin. apply MapStructFacts.fresh_bounds in Hx.
    specialize (Hbelow x Hin). lia. }
  destruct (cleanup_chain _ fuel h2 Hchain2) as (h3 & Hrun3 & Hbrk3 & Hnodes3).
  { rewrite MapStructFacts.fresh_length. exact Hfuel. }
  rewrite Hrun3. simpl. exists h3. split; [reflexivity|].
  split; [lia|].
  intros a. rewrite Hnodes3, Hnodes2.
  destruct (decide (a ∈ fresh (Heap.brk h) l)) as [Hfresh|Hold].
  - apply MapStructFacts.fresh_bounds in Hfresh.
    rewrite decide_False by (intros Hin; specialize (Hbelow a Hin); lia).
    destruct (Heap.nodes h !! a) as [n|] eqn:Hn; [|reflexivity].
    destruct Hwf as [_ Hwf]. specialize (Hwf a n Hn). lia.
  - destruct (decide (a ∈ l)); [reflexivity|].
    apply Hsame. intros Ha. apply Hold. apply fresh_covers. lia.
Qed.

Lemma main_prints_squares_and_frees_everything_witness :
  Heap.wf sample_heap
  ∧ Heap.chain next [1; 2; 3] sample_heap
  ∧ ∃ h', main_from 3 (head_of [1; 2; 3]) sample_heap
            = Some ([1; 2; 3], [1; 4; 9], h')
          ∧ Heap.brk h' = 7.
Proof.
  split; [exact MapStructFacts.sample_wf|].
  split; [exact MapStructFacts.sample_chain|].
  destruct main_prints_squares_and_frees_everything as [Hgen _].
  destruct (Hgen [1; 2; 3] sample_heap 3%nat MapStructFacts.sample_wf
              MapStructFacts.sample_chain) as (h' & Hrun & Hbrk & _).
  - simpl. lia.
  - exists h'. split; [exact Hrun|exact Hbrk].
Defined.

(** *** A transform that does not wire its successor *)

Lemma body_unwired_allocates value nxt h :
  value ≠ Heap.brk h →
  body_unwired value nxt h =
    (Heap.brk h,
     Heap.Mk (<[Heap.brk h := mkNode (square (data_of value h)) NULL]> (Heap.nodes h))
             (Heap.brk h + 1)).
Proof.
  intros Hv. unfold body_unwired, set_data, set_next, Heap.assign, Heap.malloc.
  simpl. rewrite !alter_insert_eq. simpl. f_equal. f_equal. f_equal.
  unfold square, data_of, Heap.field. simpl.
  rewrite lookup_insert_ne by congruence. reflexivity.
Qed.

Lemma build_unwired l :
  ∀ h, (∀ x, x ∈ l → x < Heap.brk h) →
    ∃ h', build body_unwired l h = (head_of (fresh (Heap.brk h) l), h')
          ∧ Heap.brk h' = Heap.brk h + Z.of_nat (length l)
          ∧ (∀ a, a < Heap.brk h → Heap.nodes h' !! a = Heap.nodes h !! a).
Proof.
  induction l as [|x l IH]; intros h Hbelow.
  - exists h. simpl. split; [reflexivity|]. split; [lia|reflexivity].
  - destruct (IH h) as (h1 & Hbuild & Hbrk1 & Hsame).
    { intros y Hy. apply Hbelow, list_elem_of_further, Hy. }
    assert (Hx : x < Heap.brk h) by apply Hbelow, list_elem_of_here.
    simpl build. rewrite Hbuild, body_unwired_allocates by lia.
    eexists. split; [simpl; rewrite Hbrk1; reflexivity|].
    cbn [Heap.brk Heap.nodes length]. split; [lia|].
    intros a Ha. rewrite lookup_insert_ne by lia. apply Hsame. exact Ha.
Qed.

(** X9. [map_s] does not link the new nodes, the transform does.  With the
    transform of the example changed to store [NULL] in place of the
    successor it is given, [map_s] on any non-empty chain of a well-formed
    heap still calls it on every element and allocates one node per
    element, but the list at the head it returns is one node long: the
    square of the first datum. *)
Theorem map_s_with_unwired_transform_truncates :
  ∀ (x : ptr) (l : list ptr) (h : Heap.heap Node) (fuel : nat),
    Heap.wf h → Heap.chain next (x :: l) h → (length (x :: l) ≤ fuel)%nat →
    ∃ new_head h',
      map_s fuel x findnext body_unwired h = Some (new_head, h')
      ∧ print fuel new_head h' = Some [square (data_of x h)]
      ∧ Heap.brk h' = Heap.brk h + Z.of_nat (length (x :: l)).
Proof.
  intros x l h fuel Hwf Hchain Hfuel.
  pose proof (MapStructFacts.chain_below (x :: l) h Hwf Hchain) as Hbelow.
  pose proof (ChainFacts.map_s_build (Heap.chain next) findnext body_unwired
                MapStructFacts.chain_finite_chain (x :: l) fuel h Hchain Hfuel)
    as Hrun.
  rewrite MapStructFacts.descend_findnext in Hrun.
  change (head_of (x :: l)) with x in Hrun.
  destruct (build_unwired l h) as (h1 & Hbuild & Hbrk1 & Hsame).
  { intros y Hy. apply (Hbelow y). apply list_elem_of_further, Hy. }
  assert (Hx : 0 < x < Heap.brk h) by apply Hbelow, list_elem_of_here.
  simpl build in Hrun. rewrite Hbuild, body_unwired_allocates in Hrun by lia.
  eexists _, _. split; [exact Hrun|]. split.
  - destruct fuel as [|fuel]; [simpl in Hfuel; lia|].
    destruct Hwf as [Hpos _].
    simpl. rewrite ChainFacts.eqb_NULL by (unfold NULL; lia).
    unfold next_of, data_of, Heap.field. simpl.
    rewrite lookup_insert_eq. simpl.
    replace (print fuel NULL _) with (Some (@nil Z)) by (destruct fuel; reflexivity).
    simpl. rewrite Hsame by lia. reflexivity.
  - simpl. lia.
Qed.

Lemma map_s_with_unwired_transform_truncates_witness :
  Heap.wf sample_heap
  ∧ Heap.chain next (1 :: [2; 3]) sample_heap
  ∧ ∃ new_head h',
      map_s 3 1 findnext body_unwired sample_heap = Some (new_head, h')
      ∧ print 3 new_head h' = Some [1]
      ∧ Heap.brk h' = 7.
Proof.
  split; [exact MapStructFacts.sample_wf|].
  split; [exact MapStructFacts.sample_chain|].
  apply (map_s_with_unwired_transform_truncates 1 [2; 3] sample_heap 3%nat
           MapStructFacts.sample_wf MapStructFacts.sample_chain).
  simpl. lia.
Defined.

(** *** Summing a list *)

Lemma wrap_add_l a b : Int.wrap (Int.wrap a + b) = Int.wrap (a + b).
Proof.
  unfold Int.wrap.
  replace ((a - Int.INT_MIN) mod 4294967296 + Int.INT_MIN + b - Int.INT_MIN)
    with ((a - Int.INT_MIN) mod 4294967296 + b) by lia.
  rewrite Zplus_mod_idemp_l.
  replace (a - Int.INT_MIN + b) with (a + b - Int.INT_MIN) by lia.
  reflexivity.
Qed.

Lemma foldl_add_wrap ds : ∀ a,
  foldl Int.add (Int.wrap a) ds = Int.wrap (a + Pure.total ds).
Proof.
  induction ds as [|d ds IH]; intros a; simpl.
  - rewrite Z.add_0_r. reflexivity.
  - unfold Int.add at 2. rewrite wrap_add_l, IH. f_equal. lia.
Qed.

Lemma visit_sum l : ∀ acc h (c : nat),
  visit next_counting sum_counting l acc (h, c)
  = (foldl Int.add acc (data_at l h), (h, (c + length l)%nat)).
Proof.
  induction l as [|x l IH]; intros acc h c; simpl.
  - rewrite Nat.add_0_r. reflexivity.
  - rewrite IH, Nat.add_succ_r. reflexivity.
Qed.

Lemma fold_s_sum l h fuel :
  Heap.chain next l h → (length l ≤ fuel)%nat →
  fold_s fuel (head_of l) next_counting sum_counting 0 (h, 0%nat)
  = Some (Int.wrap (Pure.total (data_at l h)), (h, length l)).
Proof.
  intros Hchain Hfuel.
  rewrite (ChainFacts.fold_s_visit chain_counted next_counting sum_counting
             MapStructFacts.counting_finite_chain l fuel 0 (h, 0%nat))
    by assumption.
  rewrite visit_sum. change 0 with (Int.wrap 0) at 1.
  rewrite foldl_add_wrap. reflexivity.
Qed.

(** X10. [fold_s] with the lambdas of its usage note, [{ return
    value->next; }] and [{ return acc + value->data; }], from 0 on any
    chain: it returns the sum of the data of the chain, wrapped to [int],
    after exactly one call of the reducer per node, and leaves the heap as
    it was. *)
Theorem fold_s_sums_the_chain :
  ∀ (l : list ptr) (h : Heap.heap Node) (fuel : nat),
    Heap.chain next l h → (length l ≤ fuel)%nat →
    fold_s fuel (head_of l) next_counting sum_counting 0 (h, 0%nat)
    = Some (Int.wrap (Pure.total (data_at l h)), (h, length l)).
Proof. intros l h fuel. apply fold_s_sum. Qed.

Lemma fold_s_sums_the_chain_witness :
  Heap.chain next [1; 2; 3] sample_heap
  ∧ fold_s 4 (head_of [1; 2; 3]) next_counting sum_counting 0 (sample_heap, 0%nat)
    = Some (6, (sample_heap, 3%nat)).
Proof.
  split; [exact MapStructFacts.sample_chain|].
  apply (fold_s_sums_the_chain [1; 2; 3] sample_heap 4%nat
           MapStructFacts.sample_chain).
  simpl. lia.
Defined.

(** X11. [fold_s] after [map_s]: summing the list that [map_s] built with
    the squaring transform, on any chain of a well-formed heap, returns the
    sum of the squares of the original data, wrapped to [int], after as
    many reducer calls as the original list has nodes. *)
Theorem sum_after_map_s_is_sum_of_squares :
  ∀ (l : list ptr) (h : Heap.heap Node) (fuel : nat),
    Heap.wf h → Heap.chain next l h → (length l ≤ fuel)%nat →
    ∃ new_head h',
      map_s fuel (head_of l) findnext body h = Some (new_head, h')
      ∧ fold_s fuel new_head next_counting sum_counting 0 (h', 0%nat)
        = Some (Int.wrap (Pure.total (square <$> data_at l h)), (h', length l)).
Proof.
  intros l h fuel Hwf Hchain Hfuel.
  destruct (MapStructFacts.map_s_squares l h fuel Hwf Hchain Hfuel)
    as (h' & Hrun & _ & _ & Hnew & Hdata).
  exists (head_of (fresh (Heap.brk h) l)), h'. split; [exact Hrun|].
  rewrite fold_s_sum by (rewrite ?MapStructFacts.fresh_length; assumption).
  rewrite Hdata, MapStructFacts.fresh_length. reflexivity.
Qed.

Lemma sum_after_map_s_is_sum_of_squares_witness :
  Heap.wf sample_heap
  ∧ Heap.chain next [1; 2; 3] sample_heap
  ∧ ∃ new_head h',
      map_s 3 (head_of [1; 2; 3]) findnext body sample_heap = Some (new_head, h')
      ∧ fold_s 3 new_head next_counting sum_counting 0 (h', 0%nat)
        = Some (14, (h', 3%nat)).
Proof.
  split; [exact MapStructFacts.sample_wf|].
  split; [exact MapStructFacts.sample_chain|].
  apply (sum_after_map_s_is_sum_of_squares [1; 2; 3] sample_heap 3%nat
           MapStructFacts.sample_wf MapStructFacts.sample_chain).
  simpl. lia.
Defined.

(** X16. The list [map_s] builds shares no node with the original: on any
    chain of a well-formed heap, after [map_s] with the lambdas of the
    example and the cleanup loop on the original list, the new list is
    intact and the print loop on it still prints the squares of the
    original data, in order. *)
Theorem mapped_list_survives_freeing_the_original :
  ∀ (l : list ptr) (h : Heap.heap Node) (fuel : nat),
    Heap.wf h → Heap.chain next l h → (length l ≤ fuel)%nat →
    ∃ new_head h1 h2,
      map_s fuel (head_of l) findnext body h = Some (new_head, h1)
      ∧ cleanup fuel (head_of l) h1 = Some h2
      ∧ print fuel new_head h2 = Some (square <$> data_at l h).
Proof.
  intros l h fuel Hwf Hchain Hfuel.
  pose proof (MapStructFacts.chain_below l h Hwf Hchain) as Hbelow.
  destruct (MapStructFacts.map_s_squares l h fuel Hwf Hchain Hfuel)
    as (h1 & Hrun & Hkeep & _ & Hnew & Hdata).
  assert (Hchain1 : Heap.chain next l h1).
  { eapply HeapFacts.chain_agree; [|exact Hchain].
    intros x Hx.
    destruct (MapStructFacts.chain_allocated l h Hchain x Hx) as [n Hn].
    rewrite Hn. apply Hkeep. exact Hn. }
  destruct (cleanup_chain l fuel h1 Hchain1 Hfuel) as (h2 & Hrun2 & _ & Hnodes2).
  assert (Hsame : ∀ x, x ∈ fresh (Heap.brk h) l →
            Heap.nodes h2 !! x = Heap.nodes h1 !! x).
  { intros x Hx. rewrite Hnodes2. rewrite decide_False; [reflexivity|].
    intros Hin. apply MapStructFacts.fresh_bounds in Hx.
    specialize (Hbelow x Hin). lia. }
  exists (head_of (fresh (Heap.brk h) l)), h1, h2.
  split; [exact Hrun|]. split; [exact Hrun2|].
  rewrite <- Hdata, <- (MapStructFacts.data_at_agree _ h1 h2 Hsame).
  apply MapStructFacts.print_chain.
  - eapply HeapFacts.chain_agree; [exact Hsame|exact Hnew].
  - rewrite MapStructFacts.fresh_length. exact Hfuel.
Qed.

Lemma mapped_list_survives_freeing_the_original_witness :
  Heap.wf sample_heap
  ∧ Heap.chain next [1; 2; 3] sample_heap
  ∧ ∃ new_head h1 h2,
      map_s 3 (head_of [1; 2; 3]) findnext body sample_heap = Some (new_head, h1)
      ∧ cleanup 3 (head_of [1; 2; 3]) h1 = Some h2
      ∧ print 3 new_head h2 = Some [1; 4; 9].
Proof.
  split; [exact MapStructFacts.sample_wf|].
  split; [exact MapStructFacts.sample_chain|].
  apply (mapped_list_survives_freeing_the_original [1; 2; 3] sample_heap 3%nat
           MapStructFacts.sample_wf MapStructFacts.sample_chain).
  simpl. lia.
Defined.

End MapStructExtras.

(** * More on [linked_list_fold_example.c] *)

Module FoldStructExtras.
Import Chains FoldStruct FoldStructRun.

Implicit Types (s : world) (l : list ptr) (x : ptr) (args : list string).

(** *** Building the list *)

Lemma push_allocates acc value s :
  push acc value s =
    (Heap.brk (Arrays.env s),
     with_heap s
       (Heap.Mk (<[Heap.brk (Arrays.env s) := mk_linked value acc]>
                   (Heap.nodes (Arrays.env s)))
                (Heap.brk (Arrays.env s) + 1))).
Proof.
  unfold push, Heap.assign, Heap.malloc. simpl.
  rewrite !alter_insert_eq. reflexivity.
Qed.

Lemma pushed_shift b n : pushed b (S n) = pushed (b + 1) n ++ [b].
Proof.
  induction n as [|n IH].
  - simpl. rewrite Z.add_0_r. reflexivity.
  - change (pushed b (S (S n))) with ((b + Z.of_nat (S n)) :: pushed b (S n)).
    rewrite IH. simpl. f_equal. lia.
Qed.

Lemma pushed_bounds b n a : a ∈ pushed b n ↔ b ≤ a < b + Z.of_nat n.
Proof.
  induction n as [|n IH]; simpl.
  - rewrite elem_of_nil. lia.
  - rewrite elem_of_cons, IH. lia.
Qed.

Lemma length_pushed b n : length (pushed b n) = n.
Proof. induction n as [|n IH]; simpl; [reflexivity|]. rewrite IH. reflexivity. Qed.

Lemma items_at_agree l s s' :
  (∀ x, x ∈ l →
     Heap.nodes (Arrays.env s') !! x = Heap.nodes (Arrays.env s) !! x) →
  items_at l s' = items_at l s.
Proof.
  intros Hsame. unfold items_at. apply list_fmap_ext.
  intros i x Hx. unfold item_of, Heap.field.
  rewrite (Hsame x) by (eapply list_elem_of_lookup_2; exact Hx). reflexivity.
Qed.

(** The reducer of [main] run over the arguments [args], starting from a
    list [lacc] that is already there. *)
Lemma reduce_push args :
  ∀ lacc acc s,
    0 < Heap.brk (Arrays.env s) →
    Heap.chain next lacc (Arrays.env s) →
    acc = head_of lacc →
    (∀ x, x ∈ lacc → x < Heap.brk (Arrays.env s)) →
    ∃ s',
      Arrays.reduce push args acc s
        = (head_of (pushed (Heap.brk (Arrays.env s)) (length args) ++ lacc), s')
      ∧ Arrays.cells s' = Arrays.cells s
      ∧ Heap.brk (Arrays.env s')
        = Heap.brk (Arrays.env s) + Z.of_nat (length args)
      ∧ (∀ a, ¬ (Heap.brk (Arrays.env s) ≤ a < Heap.brk (Arrays.env s')) →
              Heap.nodes (Arrays.env s') !! a = Heap.nodes (Arrays.env s) !! a)
      ∧ Heap.chain next
          (pushed (Heap.brk (Arrays.env s)) (length args) ++ lacc) (Arrays.env s')
      ∧ items_at (pushed (Heap.brk (Arrays.env s)) (length args)) s'
        = reverse args.
Proof.
  induction args as [|v args IH]; intros lacc acc s Hpos Hchain Hacc Hbelow.
  - exists s. simpl. rewrite Hacc.
    repeat split; try reflexivity; try lia. exact Hchain.
  - cbn [Arrays.reduce]. rewrite push_allocates.
    set (b := Heap.brk (Arrays.env s)) in *.
    set (s1 := with_heap s (Heap.Mk (<[b := mk_linked v acc]>
                                       (Heap.nodes (Arrays.env s))) (b + 1))).
    destruct (IH (b :: lacc) b s1) as (s' & Hrun & Hcells & Hbrk & Hsame & Hlist & Hitems).
    + simpl. lia.
    + split; [unfold NULL; lia|]. split.
      * exists (mk_linked v acc). simpl. rewrite lookup_insert_eq.
        split; [reflexivity|exact Hacc].
      * eapply HeapFacts.chain_agree; [|exact Hchain].
        intros x Hx. simpl. apply lookup_insert_ne.
        specialize (Hbelow x Hx). lia.
    + reflexivity.
    + intros x Hx. simpl. apply elem_of_cons in Hx as [->|Hx]; [lia|].
      specialize (Hbelow x Hx). lia.
    + simpl in Hrun, Hcells, Hbrk, Hsame, Hlist, Hitems.
      exists s'. cbn [length]. rewrite pushed_shift, <- app_assoc.
      split; [exact Hrun|]. split; [exact Hcells|]. split; [lia|].
      split; [|split; [exact Hlist|]].
      * intros a Ha. rewrite Hsame by lia. apply lookup_insert_ne. lia.
      * unfold items_at in *. rewrite fmap_app, Hitems, reverse_cons. simpl.
        f_equal. f_equal. unfold item_of, Heap.field.
        rewrite Hsame by lia. rewrite lookup_insert_eq. reflexivity.
Qed.

Lemma push_keeps_array argv args acc value s :
  Arrays.array_at argv args s → Arrays.array_at argv args (push acc value s).2.
Proof. intros H. rewrite push_allocates. exact H. Qed.

Lemma fold_push argv args s :
  Heap.wf (Arrays.env s) →
  Arrays.array_at argv args s →
  Z.of_nat (length args) ≤ Int.INT_MAX →
  ∃ s',
    Arrays.fold argv (Z.of_nat (length args)) push NULL s
      = Some (head_of (pushed (Heap.brk (Arrays.env s)) (length args)), s')
    ∧ Arrays.cells s' = Arrays.cells s
    ∧ Heap.brk (Arrays.env s') = Heap.brk (Arrays.env s) + Z.of_nat (length args)
    ∧ (∀ a, ¬ (Heap.brk (Arrays.env s) ≤ a < Heap.brk (Arrays.env s')) →
            Heap.nodes (Arrays.env s') !! a = Heap.nodes (Arrays.env s) !! a)
    ∧ Heap.chain next (pushed (Heap.brk (Arrays.env s)) (length args))
        (Arrays.env s')
    ∧ items_at (pushed (Heap.brk (Arrays.env s)) (length args)) s'
      = reverse args.
Proof.
  intros [Hpos _] Harr Hmax.
  destruct (reduce_push args [] NULL s Hpos I eq_refl)
    as (s' & Hrun & Hcells & Hbrk & Hsame & Hlist & Hitems).
  { intros x Hx. apply elem_of_nil in Hx. contradiction. }
  rewrite app_nil_r in Hrun, Hlist.
  exists s'. split; [|repeat split; assumption].
  unfold Arrays.fold. rewrite Nat2Z.id.
  rewrite (ArrayFacts.fold_loop_reduce argv args push Hmax) with (l2 := args) (l1 := []).
  - rewrite Hrun. reflexivity.
  - intros acc v s0. apply push_keeps_array.
  - reflexivity.
  - lia.
  - exact Harr.
Qed.

(** X12. The first step of [main]: [fold] with the allocating reducer over
    [argv].  From a well-formed heap it allocates one struct per argument,
    at consecutive fresh addresses, and returns the struct of the last
    argument as the head of a chain that holds the arguments in reverse
    order; [argv] and every struct that was there before are untouched. *)
Theorem fold_builds_the_reversed_list :
  ∀ (argv : Z) (args : list string) (s : world),
    Heap.wf (Arrays.env s) →
    Arrays.array_at argv args s →
    Z.of_nat (length args) ≤ Int.INT_MAX →
    ∃ s',
      Arrays.fold argv (Z.of_nat (length args)) push NULL s
        = Some (head_of (pushed (Heap.brk (Arrays.env s)) (length args)), s')
      ∧ Arrays.cells s' = Arrays.cells s
      ∧ Heap.brk (Arrays.env s') = Heap.brk (Arrays.env s) + Z.of_nat (length args)
      ∧ (∀ a, ¬ (Heap.brk (Arrays.env s) ≤ a < Heap.brk (Arrays.env s')) →
              Heap.nodes (Arrays.env s') !! a = Heap.nodes (Arrays.env s) !! a)
      ∧ Heap.chain next (pushed (Heap.brk (Arrays.env s)) (length args))
          (Arrays.env s')
      ∧ items_at (pushed (Heap.brk (Arrays.env s)) (length args)) s'
        = reverse args.
Proof. intros argv args s. apply fold_push. Qed.

Lemma sample_world_wf : Heap.wf (Arrays.env sample_world).
Proof.
  split; [reflexivity|]. intros a n Ha.
  change (Heap.nodes (Arrays.env sample_world)) with (∅ : gmap Z linked_s) in Ha.
  rewrite lookup_empty in Ha. discriminate.
Qed.

Lemma sample_world_argv :
  Arrays.array_at 8 ["prog"; "-o"; "out.txt"]%string sample_world.
Proof. apply ArrayFacts.place_array_at. Qed.

Lemma sample_args_length :
  Z.of_nat (length ["prog"; "-o"; "out.txt"]%string) ≤ Int.INT_MAX.
Proof. vm_compute. discriminate. Qed.

Lemma fold_builds_the_reversed_list_witness :
  Heap.wf (Arrays.env sample_world)
  ∧ Arrays.array_at 8 ["prog"; "-o"; "out.txt"]%string sample_world
  ∧ ∃ s',
      Arrays.fold 8 3 push NULL sample_world = Some (3, s')
      ∧ items_at [3; 2; 1] s' = ["out.txt"; "-o"; "prog"]%string.
Proof.
  split; [exact sample_world_wf|]. split; [exact sample_world_argv|].
  destruct (fold_builds_the_reversed_list 8 ["prog"; "-o"; "out.txt"]%string
              sample_world sample_world_wf sample_world_argv sample_args_length)
    as (s' & Hrun & _ & _ & _ & _ & Hitems).
  exists s'. split; [exact Hrun|exact Hitems].
Defined.

(** *** Adding up the lengths *)

Lemma successor_finite_chain acc :
  finite_chain linked (fold_s_step successor add_strlen acc).
Proof.
  intros x l s (Hx & (n & Hn & Hnext) & Hrest).
  split; [exact Hx|]. split; [|exact Hrest].
  unfold fold_s_step, add_strlen, successor, next_of, Heap.field. simpl.
  rewrite Hn. exact Hnext.
Qed.

Lemma total_app ds1 ds2 :
  Pure.total (ds1 ++ ds2) = Pure.total ds1 + Pure.total ds2.
Proof.
  induction ds1 as [|d ds1 IH]; simpl; [reflexivity|].
  unfold Pure.total in *. simpl. rewrite IH. lia.
Qed.

Lemma total_reverse ds : Pure.total (reverse ds) = Pure.total ds.
Proof.
  induction ds as [|d ds IH]; [reflexivity|].
  rewrite reverse_cons, total_app, IH. unfold Pure.total. simpl. lia.
Qed.

Lemma strlen_total_reverse args :
  strlen_total (reverse args) = strlen_total args.
Proof. unfold strlen_total. rewrite fmap_reverse. apply total_reverse. Qed.

Lemma strlen_total_cons it items :
  strlen_total (it :: items) = Z.of_nat (String.length it) + strlen_total items.
Proof. reflexivity. Qed.

Lemma foldl_strlen_wrap items : ∀ a,
  foldl (λ acc it, Int.wrap (acc + Z.of_nat (String.length it))) (Int.wrap a) items
  = Int.wrap (a + strlen_total items).
Proof.
  induction items as [|it items IH]; intros a.
  - unfold strlen_total. simpl. rewrite Z.add_0_r. reflexivity.
  - cbn [foldl]. rewrite MapStructExtras.wrap_add_l, IH, strlen_total_cons.
    f_equal. lia.
Qed.

Lemma visit_strlen l : ∀ acc s,
  visit successor add_strlen l acc s
  = (foldl (λ a it, Int.wrap (a + Z.of_nat (String.length it))) acc (items_at l s),
     s).
Proof.
  induction l as [|x l IH]; intros acc s; [reflexivity|].
  cbn [visit]. unfold add_strlen at 1. unfold successor at 1. cbn [snd].
  rewrite IH. reflexivity.
Qed.

Lemma fold_s_strlen l s fuel :
  linked l s → (length l ≤ fuel)%nat →
  fold_s fuel (head_of l) successor add_strlen 0 s
  = Some (Int.wrap (strlen_total (items_at l s)), s).
Proof.
  intros Hchain Hfuel.
  rewrite (ChainFacts.fold_s_visit linked successor add_strlen
             successor_finite_chain l fuel 0 s) by assumption.
  rewrite visit_strlen. change 0 with (Int.wrap 0) at 1.
  rewrite foldl_strlen_wrap. reflexivity.
Qed.

(** X13. The second step of [main]: [fold_s] with [{ return value->next; }]
    and [{ return acc + strlen(value->item); }] from 0.  On any chain it
    returns the sum of the lengths of the items of the chain, wrapped to
    [int], and leaves the store as it was. *)
Theorem fold_s_adds_up_the_lengths :
  ∀ (l : list ptr) (s : world) (fuel : nat),
    Heap.chain next l (Arrays.env s) → (length l ≤ fuel)%nat →
    fold_s fuel (head_of l) successor add_strlen 0 s
    = Some (Int.wrap (strlen_total (items_at l s)), s).
Proof. intros l s fuel. apply fold_s_strlen. Qed.

Lemma fold_s_adds_up_the_lengths_witness :
  Heap.chain next [3; 2; 1] (Arrays.env sample_list.2)
  ∧ fold_s 3 (head_of [3; 2; 1]) successor add_strlen 0 sample_list.2
    = Some (13, sample_list.2).
Proof.
  assert (H : Heap.chain next [3; 2; 1] (Arrays.env sample_list.2))
    by apply FoldStructFacts.sample_list_chain.
  split; [exact H|].
  apply (fold_s_adds_up_the_lengths [3; 2; 1] sample_list.2 3%nat H).
  simpl. lia.
Defined.

(** *** Releasing the list *)

Lemma foreach_s_release l :
  ∀ fuel s, linked l s → (length l ≤ fuel)%nat →
    ∃ s', foreach_s fuel (head_of l) release s = Some s'
          ∧ Arrays.cells s' = Arrays.cells s
          ∧ Heap.brk (Arrays.env s') = Heap.brk (Arrays.env s)
          ∧ ∀ a, Heap.nodes (Arrays.env s') !! a
                 = if decide (a ∈ l) then None
                   else Heap.nodes (Arrays.env s) !! a.
Proof.
  induction l as [|x l IH]; intros fuel s Hchain Hfuel.
  - exists s. split; [destruct fuel; reflexivity|].
    split; [reflexivity|]. split; [reflexivity|].
    intros a. rewrite decide_False by apply not_elem_of_nil. reflexivity.
  - destruct fuel as [|fuel]; [simpl in Hfuel; lia|].
    pose proof (HeapExtras.chain_NoDup next _ _ Hchain) as Hnodup.
    apply NoDup_cons in Hnodup as [Hnotin _].
    destruct Hchain as (Hx & (n & Hn & Hnext) & Hrest).
    assert (Hnx : next_of x s = head_of l)
      by (unfold next_of, Heap.field; rewrite Hn; exact Hnext).
    destruct (IH fuel (with_heap s (Heap.free x (Arrays.env s))))
      as (s' & Hrun & Hcells & Hbrk & Hnodes).
    { apply HeapExtras.chain_free; assumption. }
    { simpl in Hfuel. lia. }
    exists s'. split; [|split; [exact Hcells|split; [exact Hbrk|]]].
    + change (head_of (x :: l)) with x.
      rewrite ChainFacts.foreach_s_element by exact Hx.
      unfold release. rewrite Hnx. exact Hrun.
    + intros a. rewrite Hnodes. simpl.
      destruct (decide (a = x)) as [->|Hne].
      * rewrite decide_False by exact Hnotin.
        rewrite decide_True by apply list_elem_of_here.
        apply lookup_delete_eq.
      * rewrite lookup_delete_ne by congruence.
        destruct (decide (a ∈ l)) as [Hin|Hout].
        -- rewrite decide_True by (apply list_elem_of_further; exact Hin).
           reflexivity.
        -- rewrite decide_False; [reflexivity|].
           intros Hin. apply elem_of_cons in Hin as [?|?]; contradiction.
Qed.

(** X14. The last step of [main]: [foreach_s] with
    [{ linked_s *r=value->next; free(value); return r; }].  On any chain
    it ends after freeing exactly the structs of the chain: every address
    of the chain is free afterwards, every other address holds what it
    held, and [argv] is untouched.  The callable reads the successor
    before it frees the struct, so no freed struct is read. *)
Theorem foreach_s_frees_exactly_the_list :
  ∀ (l : list ptr) (s : world) (fuel : nat),
    Heap.chain next l (Arrays.env s) → (length l ≤ fuel)%nat →
    ∃ s', foreach_s fuel (head_of l) release s = Some s'
          ∧ Arrays.cells s' = Arrays.cells s
          ∧ Heap.brk (Arrays.env s') = Heap.brk (Arrays.env s)
          ∧ ∀ a, Heap.nodes (Arrays.env s') !! a
                 = if decide (a ∈ l) then None
                   else Heap.nodes (Arrays.env s) !! a.
Proof. intros l s fuel. apply foreach_s_release. Qed.

Lemma foreach_s_frees_exactly_the_list_witness :
  Heap.chain next [3; 2; 1] (Arrays.env sample_list.2)
  ∧ ∃ s', foreach_s 3 (head_of [3; 2; 1]) release sample_list.2 = Some s'
          ∧ Heap.nodes (Arrays.env s') !! 2 = None.
Proof.
  assert (H : Heap.chain next [3; 2; 1] (Arrays.env sample_list.2))
    by apply FoldStructFacts.sample_list_chain.
  split; [exact H|].
  destruct (foreach_s_frees_exactly_the_list [3; 2; 1] sample_list.2 3%nat H)
    as (s' & Hrun & _ & _ & Hnodes).
  - simpl. lia.
  - exists s'. split; [exact Hrun|]. rewrite Hnodes. reflexivity.
Defined.

(** *** The whole program *)

(** X15. [main] on any command line.  With [argc] arguments in [argv] and
    a well-formed heap it prints the sum of the lengths of the arguments,
    wrapped to [int], and returns with [argv] untouched and the heap
    holding exactly the structs it held at the start: each of the [argc]
    structs it allocated has been freed.  With [argc] zero or negative it
    prints 0 and changes nothing, without reading [argv]. *)
Theorem main_prints_total_length_and_frees_the_list :
  ∀ (argv : Z) (s : world),
    (∀ (args : list string) (fuel : nat),
       Heap.wf (Arrays.env s) →
       Arrays.array_at argv args s →
       Z.of_nat (length args) ≤ Int.INT_MAX →
       (length args ≤ fuel)%nat →
       ∃ s', main fuel (Z.of_nat (length args)) argv s
               = Some (Int.wrap (strlen_total args), s')
             ∧ Arrays.cells s' = Arrays.cells s
             ∧ Heap.nodes (Arrays.env s') = Heap.nodes (Arrays.env s)
             ∧ Heap.brk (Arrays.env s')
               = Heap.brk (Arrays.env s) + Z.of_nat (length args))
    ∧ (∀ (argc : Z) (fuel : nat), argc ≤ 0 → main fuel argc argv s = Some (0, s)).
Proof.
  intros argv s. split.
  - intros args fuel Hwf Harr Hmax Hfuel. unfold main.
    destruct (fold_push argv args s Hwf Harr Hmax)
      as (s1 & Hrun1 & Hcells1 & Hbrk1 & Hsame1 & Hlist1 & Hitems1).
    rewrite Hrun1. simpl.
    rewrite fold_s_strlen by (rewrite ?length_pushed; assumption). simpl.
    rewrite Hitems1, strlen_total_reverse.
    destruct (foreach_s_release _ fuel s1 Hlist1)
      as (s2 & Hrun2 & Hcells2 & Hbrk2 & Hnodes2).
    { rewrite length_pushed. exact Hfuel. }
    rewrite Hrun2. simpl. exists s2. split; [reflexivity|].
    split; [congruence|]. split; [|lia].
    apply map_eq. intros a. rewrite Hnodes2.
    destruct (decide (a ∈ pushed (Heap.brk (Arrays.env s)) (length args)))
      as [Hin|Hout].
    + apply pushed_bounds in Hin.
      destruct (Heap.nodes (Arrays.env s) !! a) as [n|] eqn:Hn; [|reflexivity].
      destruct Hwf as [_ Hwf]. specialize (Hwf a n Hn). lia.
    + apply Hsame1. rewrite Hbrk1. intros Ha. apply Hout.
      apply pushed_bounds. exact Ha.
  - intros argc fuel Hargc. unfold main, Arrays.fold.
    rewrite ArrayFacts.fold_loop_exit by exact Hargc. simpl.
    rewrite ChainFacts.fold_s_sentinel. simpl.
    rewrite ChainFacts.foreach_s_sentinel. reflexivity.
Qed.

Lemma main_prints_total_length_and_frees_the_list_witness :
  Heap.wf (Arrays.env sample_world)
  ∧ Arrays.array_at 8 ["prog"; "-o"; "out.txt"]%string sample_world
  ∧ (∃ s', main 3 3 8 sample_world = Some (13, s')
           ∧ Heap.nodes (Arrays.env s') = ∅)
  ∧ main 0 (-1) 8 sample_world = Some (0, sample_world).
Proof.
  split; [exact sample_world_wf|]. split; [exact sample_world_argv|].
  destruct (main_prints_total_length_and_frees_the_list 8 sample_world)
    as [Hrun Hnone].
  split.
  - destruct (Hrun ["prog"; "-o"; "out.txt"]%string 3%nat sample_world_wf
                sample_world_argv sample_args_length)
      as (s' & Hmain & _ & Hnodes & _).
    + simpl. lia.
    + exists s'. split; [exact Hmain|exact Hnodes].
  - apply Hnone. lia.
Defined.

End FoldStructExtras.


(** * Termination of the chain combinators *)

Module StackFacts.
Import Chains.

Section StackFacts.

Context {W : Type}.
Implicit Types (w : W) (l : list ptr) (frames fuel : nat).

Lemma aux_call (findnext : ptr → W → ptr * W) (body : ptr → ptr → W → ptr * W)
    frames value w :
  Stack.aux findnext body (S frames) value w =
    if value =? NULL then Stack.Returned (value, w)
    else
      let '(next, w1) := findnext value w in
      match Stack.aux findnext body frames next w1 with
      | Stack.Returned (next', w2) => Stack.Returned (body value next' w2)
      | Stack.Exhausted => Stack.Exhausted
      end.
Proof. reflexivity. Qed.

Lemma fuel_call (findnext : ptr → W → ptr * W) (body : ptr → ptr → W → ptr * W)
    fuel value w :
  aux findnext body (S fuel) value w =
    if value =? NULL then Some (value, w)
    else
      let '(next, w1) := findnext value w in
      match aux findnext body fuel next w1 with
      | Some (next', w2) => Some (body value next' w2)
      | None => None
      end.
Proof.
  simpl. destruct (value =? NULL); [reflexivity|].
  destruct (findnext value w) as [next w1].
  destruct (aux findnext body fuel next w1) as [[next' w2]|]; reflexivity.
Qed.

(** With room for one activation more than the fuel, the run on the stack
    is the run on fuel, running out of stack where the other runs out of
    fuel. *)
Lemma on_stack_is_on_fuel (findnext : ptr → W → ptr * W)
    (body : ptr → ptr → W → ptr * W) :
  ∀ fuel first w,
    Stack.map_s (S fuel) first findnext body w =
      match map_s fuel first findnext body w with
      | Some r => Stack.Returned r
      | None => Stack.Exhausted
      end.
Proof.
  unfold Stack.map_s, map_s.
  induction fuel as [|fuel IH]; intros first w; rewrite aux_call.
  - simpl. destruct (first =? NULL); [reflexivity|].
    destruct (findnext first w) as [next w1]. reflexivity.
  - rewrite fuel_call. destruct (first =? NULL); [reflexivity|].
    destruct (findnext first w) as [next w1]. rewrite IH.
    destruct (aux findnext body fuel next w1) as [[next' w2]|]; reflexivity.
Qed.

(** Fuel for fewer elements than the chain has is not enough. *)
Lemma map_s_short (Rem : list ptr → W → Prop) (findnext : ptr → W → ptr * W)
    (body : ptr → ptr → W → ptr * W) :
  finite_chain Rem findnext →
  ∀ l fuel w,
    Rem l w → (fuel < length l)%nat →
    map_s fuel (head_of l) findnext body w = None.
Proof.
  intros Hchain l.
  induction l as [|x l IH]; intros fuel w Hrem Hfuel; [simpl in Hfuel; lia|].
  destruct (Hchain x l w Hrem) as (Hx & Hhead & Hrest).
  change (head_of (x :: l)) with x.
  destruct fuel as [|fuel].
  - unfold map_s. simpl. rewrite ChainFacts.eqb_NULL by exact Hx. reflexivity.
  - rewrite ChainFacts.map_s_element by exact Hx.
    destruct (findnext x w) as [next w1]. simpl in Hhead, Hrest.
    subst next. rewrite IH by (exact Hrest || (simpl in Hfuel; lia)).
    reflexivity.
Qed.

Lemma on_stack_finite (Rem : list ptr → W → Prop) (findnext : ptr → W → ptr * W)
    (body : ptr → ptr → W → ptr * W) l w frames :
  finite_chain Rem findnext → Rem l w →
  ((length l < frames)%nat →
     Stack.map_s frames (head_of l) findnext body w
     = Stack.Returned (build body l (descend findnext l w)))
  ∧ ((frames ≤ length l)%nat →
       Stack.map_s frames (head_of l) findnext body w = Stack.Exhausted).
Proof.
  intros Hchain Hrem. split; intros Hframes.
  - destruct frames as [|fuel]; [lia|].
    rewrite on_stack_is_on_fuel.
    rewrite (ChainFacts.map_s_build Rem findnext body Hchain l fuel w Hrem)
      by lia.
    reflexivity.
  - destruct frames as [|fuel]; [reflexivity|].
    rewrite on_stack_is_on_fuel.
    rewrite (map_s_short Rem findnext body Hchain l fuel w Hrem) by lia.
    reflexivity.
Qed.

Lemma on_stack_endless (On : ptr → W → Prop) (findnext : ptr → W → ptr * W)
    (body : ptr → ptr → W → ptr * W) first w frames :
  endless On findnext → On first w →
  Stack.map_s frames first findnext body w = Stack.Exhausted.
Proof.
  intros Hendless Hon. destruct frames as [|fuel]; [reflexivity|].
  rewrite on_stack_is_on_fuel.
  rewrite (ChainFacts.map_s_endless On findnext body Hendless fuel first w Hon).
  reflexivity.
Qed.

End StackFacts.

(** *** Lists of any length *)

Lemma pushed_head n : hd NULL (FoldStructRun.pushed 1 n) = Z.of_nat n.
Proof. destruct n as [|n]; simpl; [reflexivity|lia]. Qed.

Lemma line_lookup n : ∀ a nd,
  Line.nodes_of n !! a = Some nd → 0 < a < Z.of_nat n + 1.
Proof.
  induction n as [|n IH]; intros a nd Ha.
  - simpl in Ha. rewrite lookup_empty in Ha. discriminate.
  - cbn [Line.nodes_of] in Ha.
    destruct (decide (a = Z.of_nat (S n))) as [->|Hne]; [lia|].
    rewrite lookup_insert_ne in Ha by congruence.
    specialize (IH a nd Ha). lia.
Qed.

Lemma line_wf n : Heap.wf (Line.heap_of n).
Proof.
  split; [simpl; lia|]. intros a nd Ha. simpl in *.
  apply (line_lookup n a nd Ha).
Qed.

Lemma line_chain n :
  Heap.chain MapStruct.next (Line.elements n) (Line.heap_of n).
Proof.
  unfold Line.elements.
  induction n as [|n IH]; [exact I|].
  cbn [FoldStructRun.pushed Heap.chain]. split; [unfold NULL; lia|]. split.
  - exists (MapStruct.mkNode (Z.of_nat (S n)) (Z.of_nat n)). split.
    + simpl Heap.nodes. cbn [Line.nodes_of].
      replace (1 + Z.of_nat n) with (Z.of_nat (S n)) by lia.
      apply lookup_insert_eq.
    + simpl. symmetry. apply pushed_head.
  - eapply HeapFacts.chain_agree; [|exact IH].
    intros x Hx. apply FoldStructExtras.pushed_bounds in Hx.
    simpl Heap.nodes. cbn [Line.nodes_of].
    apply lookup_insert_ne. lia.
Qed.

Lemma line_length n : length (Line.elements n) = n.
Proof. apply FoldStructExtras.length_pushed. Qed.

(** A finite chain is not enough for [map_s] to return: the sample list
    1 -> 2 -> 3 -> NULL is a finite chain, and on a stack with room for
    three activations of [aux] the run does not return, because the fourth
    call, [aux(NULL)], has no room. *)
Lemma map_s_exhausts_the_stack_on_a_finite_chain :
  finite_chain (Heap.chain MapStruct.next) MapStruct.findnext
  ∧ Heap.chain MapStruct.next [1; 2; 3] MapStruct.sample_heap
  ∧ Stack.map_s 3 (head_of [1; 2; 3]) MapStruct.findnext MapStruct.body
      MapStruct.sample_heap = Stack.Exhausted
  ∧ ¬ (∃ r, Stack.map_s 3 (head_of [1; 2; 3]) MapStruct.findnext MapStruct.body
              MapStruct.sample_heap = Stack.Returned r).
Proof.
  split; [exact MapStructFacts.chain_finite_chain|].
  split; [exact MapStructFacts.sample_chain|].
  split; [reflexivity|].
  intros [r Hr]. vm_compute in Hr. discriminate.
Qed.

(** C7, as the code has it.  On a finite chain [fold_s] and [foreach_s]
    terminate and return: there is one result that every run with fuel for
    the length of the chain yields.  [map_s] recurses once per element
    before it builds anything, so on a finite chain it returns exactly when
    the stack has room for one activation of [aux] per element and one
    more, and it runs out of stack otherwise; whatever the room, there is
    a finite list too long for it.  Where it returns, it returns what the
    run on fuel returns.  On a chain that never reaches the Sentinel, such
    as a cycle, [fold_s] and [foreach_s] never return, whatever the fuel,
    and [map_s] runs out of stack, whatever the room. *)
Theorem chain_combinators_terminate_within_the_stack :
  (∀ (W A : Type) (next : A → ptr → W → ptr * W) (body : A → ptr → W → A * W)
     (init_acc : A) (Rem : list ptr → W → Prop) (l : list ptr) (w : W),
      (∀ acc, finite_chain Rem (fold_s_step next body acc)) → Rem l w →
      ∃ r, ∀ fuel, (length l ≤ fuel)%nat →
        fold_s fuel (head_of l) next body init_acc w = Some r)
  ∧ (∀ (W : Type) (body : ptr → W → ptr * W)
       (Rem : list ptr → W → Prop) (l : list ptr) (w : W),
       finite_chain Rem body → Rem l w →
       ∃ r, ∀ fuel, (length l ≤ fuel)%nat →
         foreach_s fuel (head_of l) body w = Some r)
  ∧ (∀ (W : Type) (findnext : ptr → W → ptr * W) (body : ptr → ptr → W → ptr * W)
       (Rem : list ptr → W → Prop) (l : list ptr) (w : W) (frames : nat),
       finite_chain Rem findnext → Rem l w →
       ((length l < frames)%nat →
          Stack.map_s frames (head_of l) findnext body w
          = Stack.Returned (build body l (descend findnext l w)))
       ∧ ((frames ≤ length l)%nat →
            Stack.map_s frames (head_of l) findnext body w = Stack.Exhausted))
  ∧ (∀ frames : nat,
       ∃ (l : list ptr) (h : Heap.heap MapStruct.Node),
         Heap.wf h ∧ Heap.chain MapStruct.next l h
         ∧ Stack.map_s frames (head_of l) MapStruct.findnext MapStruct.body h
           = Stack.Exhausted)
  ∧ (∀ (W : Type) (findnext : ptr → W → ptr * W) (body : ptr → ptr → W → ptr * W)
       (fuel : nat) (first : ptr) (w : W),
       Stack.map_s (S fuel) first findnext body w =
         match map_s fuel first findnext body w with
         | Some r => Stack.Returned r
         | None => Stack.Exhausted
         end)
  ∧ (∀ (W A : Type) (next : A → ptr → W → ptr * W) (body : A → ptr → W → A * W)
       (init_acc : A) (On : ptr → W → Prop) (first : ptr) (w : W),
       (∀ acc, endless On (fold_s_step next body acc)) → On first w →
       ∀ fuel, fold_s fuel first next body init_acc w = None)
  ∧ (∀ (W : Type) (body : ptr → W → ptr * W)
       (On : ptr → W → Prop) (first : ptr) (w : W),
       endless On body → On first w →
       ∀ fuel, foreach_s fuel first body w = None)
  ∧ (∀ (W : Type) (findnext : ptr → W → ptr * W) (body : ptr → ptr → W → ptr * W)
       (On : ptr → W → Prop) (first : ptr) (w : W),
       endless On findnext → On first w →
       ∀ frames, Stack.map_s frames first findnext body w = Stack.Exhausted).
Proof.
  split; [|split; [|split; [|split; [|split; [|split; [|split]]]]]].
  - intros W A next body init_acc Rem l w Hchain Hrem.
    exists (visit next body l init_acc w). intros fuel Hfuel.
    apply (ChainFacts.fold_s_visit Rem); assumption.
  - intros W body Rem l w Hchain Hrem.
    exists (walk body l w). intros fuel Hfuel.
    apply (ChainFacts.foreach_s_walk Rem); assumption.
  - intros W findnext body Rem l w frames Hchain Hrem.
    apply (on_stack_finite Rem); assumption.
  - intros frames. exists (Line.elements frames), (Line.heap_of frames).
    split; [apply line_wf|]. split; [apply line_chain|].
    apply (on_stack_finite (Heap.chain MapStruct.next) MapStruct.findnext
             MapStruct.body _ _ frames MapStructFacts.chain_finite_chain
             (line_chain frames)).
    rewrite line_length. lia.
  - intros W findnext body fuel first w. apply on_stack_is_on_fuel.
  - intros W A next body init_acc On first w Hendless Hon fuel.
    apply (ChainFacts.fold_s_endless On); assumption.
  - intros W body On first w Hendless Hon fuel.
    apply (ChainFacts.foreach_s_endless On); assumption.
  - intros W findnext body On first w Hendless Hon frames.
    apply (on_stack_endless On); assumption.
Qed.

Lemma chain_combinators_terminate_within_the_stack_witness :
  (∃ r, ∀ fuel, (3 ≤ fuel)%nat →
     fold_s fuel 1 MapStruct.next_counting MapStruct.sum_counting 0
       (MapStruct.sample_heap, 0%nat) = Some r)
  ∧ (∃ r, ∀ fuel, (3 ≤ fuel)%nat →
       foreach_s fuel 3 FoldStruct.release FoldStruct.sample_list.2 = Some r)
  ∧ (∃ r, Stack.map_s 4 1 MapStruct.findnext MapStruct.body MapStruct.sample_heap
          = Stack.Returned r)
  ∧ Stack.map_s 3 1 MapStruct.findnext MapStruct.body MapStruct.sample_heap
    = Stack.Exhausted
  ∧ (∀ fuel,
       fold_s fuel 1 MapStruct.next_counting MapStruct.sum_counting 0
         (MapStruct.cyclic_heap, 0%nat) = None)
  ∧ (∀ fuel, foreach_s fuel 1 MapStruct.findnext MapStruct.cyclic_heap = None)
  ∧ (∀ frames,
       Stack.map_s frames 1 MapStruct.findnext MapStruct.body
         MapStruct.cyclic_heap = Stack.Exhausted).
Proof.
  destruct chain_combinators_terminate_within_the_stack
    as (Hfold & Heach & Hmap & _ & _ & Hfold' & Heach' & Hmap').
  split; [|split; [|split; [|split; [|split; [|split]]]]].
  - exact (Hfold _ _ MapStruct.next_counting MapStruct.sum_counting 0
             MapStruct.chain_counted [1; 2; 3] (MapStruct.sample_heap, 0%nat)
             MapStructFacts.counting_finite_chain MapStructFacts.sample_chain).
  - exact (Heach _ FoldStruct.release FoldStruct.chain [3; 2; 1]
             FoldStruct.sample_list.2 FoldStructFacts.release_finite_chain
             FoldStructFacts.sample_list_chain).
  - destruct (Hmap _ MapStruct.findnext MapStruct.body (Heap.chain MapStruct.next)
                [1; 2; 3] MapStruct.sample_heap 4%nat
                MapStructFacts.chain_finite_chain MapStructFacts.sample_chain)
      as [Hreturns _].
    eexists. apply Hreturns. simpl. lia.
  - destruct (Hmap _ MapStruct.findnext MapStruct.body (Heap.chain MapStruct.next)
                [1; 2; 3] MapStruct.sample_heap 3%nat
                MapStructFacts.chain_finite_chain MapStructFacts.sample_chain)
      as [_ Hexhausts].
    apply Hexhausts. simpl. lia.
  - exact (Hfold' _ _ MapStruct.next_counting MapStruct.sum_counting 0
             MapStruct.on_cycle_counted 1 (MapStruct.cyclic_heap, 0%nat)
             MapStructFacts.cycle_endless_counted
             (conj eq_refl (or_introl eq_refl))).
  - exact (Heach' _ MapStruct.findnext MapStruct.on_cycle 1 MapStruct.cyclic_heap
             MapStructFacts.cycle_endless (conj eq_refl (or_introl eq_refl))).
  - exact (Hmap' _ MapStruct.findnext MapStruct.body MapStruct.on_cycle 1
             MapStruct.cyclic_heap MapStructFacts.cycle_endless
             (conj eq_refl (or_introl eq_refl))).
Defined.

End StackFacts.
